(** * The stream servicer ([server.py], class [SandboxServicer])

    A shallow embedding of the gRPC servicer that runs IPython cells and
    lets running code prompt the client.  The servicer is a multi-threaded
    object: one generator per [RunStream] call drains a queue, one consumer
    thread per call dispatches the client's requests, and every
    [run_cell] request is executed on a thread of its own.  All of them
    share the fields of the servicer ([response_queue], [pending_prompts]),
    the queue objects, and the interpreter-wide [sys.stdout] / [sys.stderr]
    that [contextlib.redirect_stdout] / [redirect_stderr] rebind.

    The embedding is an interleaving semantics.  A state holds the shared
    objects and, for every run thread, its local variables and a program
    point.  A step of a thread is one call on a shared object: a [put] on
    [self.response_queue], a critical section under [self.lock], an
    [__enter__] or [__exit__] of a redirection, a read of [sys.stdout], each
    of the two writes of [TeeStream.write], each [getvalue()].  Threads can
    be switched between any two steps.  A schedule is a list of events, and
    the semantics is an executable function from schedules to states and
    logs of observable effects.

    The library objects are modelled by what the code uses of them:
    [queue.Queue] as a list with [put] at the tail and [get] at the head,
    [threading.Event] as a flag that [wait] blocks on, [io.StringIO] as a
    string that [write] appends to, [redirect_stdout(x)] as the assignment
    of [x] to [sys.stdout] with the former value put back on exit, and
    [uuid.uuid4] as a source of ids. *)

From stdpp Require Import gmap strings list pretty.

(** ** Messages ([sandbox_pb2]) *)

(** [ServerMessage]: the [payload] oneof, one constructor per field. *)
Inductive ServerMessage :=
| PromptModelRequest (prompt id : string)
| PromptSelfRequest (message : string)
| Output (text : string) (is_stderr : bool)
| RunCellResult (output stdout stderr : string) (success : bool).

(** [ClientMessage]: what [_consume_requests] tests with [HasField]. *)
Inductive ClientMessage :=
| RunCellRequest (code : string)
| PromptModelResponse (id response : string)
| CancelRequest
| NoPayload.

#[global] Instance ServerMessage_eq_dec : EqDecision ServerMessage.
Proof. solve_decision. Defined.
#[global] Instance ClientMessage_eq_dec : EqDecision ClientMessage.
Proof. solve_decision. Defined.

(** ** The execution engine ([self.ipy.run_cell])

    The engine is external.  What the servicer can observe of one
    [run_cell(code)] call is the sequence of calls the running code makes
    back into the process: writes to [sys.stdout] and [sys.stderr], calls of
    the two injected functions, and finally a normal return or an exception
    escaping [run_cell] itself. *)

(** Result of a call of the injected [prompt_model]: the value it returns
    ([None] or a [str]), or the exception that [dict.pop] raises. *)
Inductive Outcome :=
| Returns (v : option string)
| Raises (exc : string).

Inductive Cell :=
| Return
| Raise (e : string)                              (* [str(e)] of the exception *)
| WriteOut (s : string) (k : Cell)                (* [sys.stdout.write(s)] *)
| WriteErr (s : string) (k : Cell)                (* [sys.stderr.write(s)] *)
| CallPromptModel (p : string) (k : Outcome → Cell)
| CallPromptSelf (m : string) (k : Cell).

(** ** Objects *)

(** A text stream that [sys.stdout] / [sys.stderr] can be bound to: the
    stream the process started with, or a [TeeStream] built by run [run],
    whose [stream1] is [OutputStream(queue q, is_stderr)] and whose
    [stream2] is that run's [captured_stdout] (or [captured_stderr] when
    [is_stderr]). *)
Inductive TextIO :=
| Console
| TeeStream (q : nat) (is_stderr : bool) (run : nat).

(** What remains to be done when a [write] call returns: go on with the
    cell, or leave the [try] (the write of the [except] branch). *)
Inductive Kont :=
| KCell (k : Cell)
| KExit.

(** Program points of [_handle_run_cell], with [prompt_model],
    [prompt_self] and [TeeStream.write] inlined where the cell calls them. *)
Inductive Pc :=
| PcStdoutStream                                   (* l.129 *)
| PcStderrStream                                   (* l.130 *)
| PcEnterStdout                                    (* l.160, [redirect_stdout.__enter__] *)
| PcEnterStderr                                    (* l.160, [redirect_stderr.__enter__] *)
| PcRunCell (c : Cell)                             (* l.162 *)
| PcWrite (f : TextIO) (s : string) (k : Kont)     (* [f.write(s)]: l.150 for a tee *)
| PcTeeCapture (run : nat) (is_stderr : bool) (s : string) (k : Kont)  (* l.151 *)
| PcPromptPut (id : string) (ev : nat) (p : string) (k : Outcome → Cell)   (* l.43 *)
| PcPromptWait (id : string) (ev : nat) (k : Outcome → Cell)               (* l.48 *)
| PcPromptPop (id : string) (k : Outcome → Cell)                           (* l.50 *)
| PcExitStderr                                     (* [redirect_stderr.__exit__] *)
| PcExitStdout                                     (* [redirect_stdout.__exit__] *)
| PcResult1                                        (* l.170, first [getvalue()] *)
| PcResult2 (o1 : string)                          (* l.170, second [getvalue()] *)
| PcResult3 (out : string)                         (* l.171 *)
| PcResult4 (out so : string)                      (* l.172 *)
| PcPutResult (out so se : string)                 (* l.168, [put] *)
| PcDone.

(** Local variables of one [_handle_run_cell] call.  The two [StringIO]
    buffers live here although other threads reach them through a tee
    bound to [sys.stdout]. *)
Record Run := {
  pc : Pc;
  code : string;                 (* [req.code] *)
  stdout_q : nat;                (* [stdout_stream.queue] *)
  stderr_q : nat;                (* [stderr_stream.queue] *)
  captured_stdout : string;
  captured_stderr : string;
  old_stdout : TextIO;           (* [redirect_stdout._old_targets] *)
  old_stderr : TextIO            (* [redirect_stderr._old_targets] *)
}.

(** An entry of [pending_prompts]: [{"event": event, "response": ...}]. *)
Record Pending := {
  event : nat;                   (* reference to a [threading.Event] *)
  response : option string       (* [None] until answered *)
}.

(** One [RunStream] call: its local queue [q], [context.is_active()], and
    whether the [while True] loop is still running. *)
Record Call := {
  q : nat;
  is_active : bool;
  looping : bool
}.

(** The process: the servicer's fields, the heap of queue and event
    objects, the interpreter's [sys.stdout] / [sys.stderr], what was written
    to the original streams, the run threads and the open calls. *)
Record State := {
  response_queue : nat;                       (* [self.response_queue] *)
  pending_prompts : gmap string Pending;      (* [self.pending_prompts] *)
  queues : list (list ServerMessage);         (* [queue.Queue] objects *)
  events : list bool;                         (* [threading.Event] objects *)
  sys_stdout : TextIO;
  sys_stderr : TextIO;
  console : list string;
  uuid_calls : nat;                           (* calls of [uuid.uuid4] so far *)
  runs : list Run;
  calls : list Call
}.

(** What the environment does next. *)
Inductive Event :=
| OpenStream                                  (* gRPC invokes [RunStream] *)
| Recv (sid : nat) (req : ClientMessage)      (* the consumer of call [sid] gets [req] *)
| Sched (t : nat)                             (* run thread [t] takes a step *)
| Drain (sid : nat)                           (* one iteration of the loop of call [sid] *)
| Disconnect (sid : nat).                     (* the peer of call [sid] goes away *)

(** What a step does that the rest of the world can see. *)
Inductive Effect :=
| EOpen (q : nat)                             (* [self.response_queue = q] *)
| EPut (q : nat) (m : ServerMessage)          (* [queue.put] *)
| EYield (m : ServerMessage)                  (* [yield msg] *)
| ERegister (id prompt : string)              (* [prompt_model(prompt)] stored an entry under [id] *)
| EResolve (id response : string)             (* answer stored, event set *)
| EReturn (id : string) (r : Outcome).        (* [prompt_model] returns *)

#[global] Instance Event_eq_dec : EqDecision Event.
Proof. solve_decision. Defined.

(** *** Field updates *)

Definition with_pc (x : Pc) (r : Run) : Run :=
  {| pc := x; code := code r; stdout_q := stdout_q r; stderr_q := stderr_q r;
     captured_stdout := captured_stdout r; captured_stderr := captured_stderr r;
     old_stdout := old_stdout r; old_stderr := old_stderr r |}.
Definition with_stdout_q (x : nat) (r : Run) : Run :=
  {| pc := pc r; code := code r; stdout_q := x; stderr_q := stderr_q r;
     captured_stdout := captured_stdout r; captured_stderr := captured_stderr r;
     old_stdout := old_stdout r; old_stderr := old_stderr r |}.
Definition with_stderr_q (x : nat) (r : Run) : Run :=
  {| pc := pc r; code := code r; stdout_q := stdout_q r; stderr_q := x;
     captured_stdout := captured_stdout r; captured_stderr := captured_stderr r;
     old_stdout := old_stdout r; old_stderr := old_stderr r |}.
Definition with_old_stdout (x : TextIO) (r : Run) : Run :=
  {| pc := pc r; code := code r; stdout_q := stdout_q r; stderr_q := stderr_q r;
     captured_stdout := captured_stdout r; captured_stderr := captured_stderr r;
     old_stdout := x; old_stderr := old_stderr r |}.
Definition with_old_stderr (x : TextIO) (r : Run) : Run :=
  {| pc := pc r; code := code r; stdout_q := stdout_q r; stderr_q := stderr_q r;
     captured_stdout := captured_stdout r; captured_stderr := captured_stderr r;
     old_stdout := old_stdout r; old_stderr := x |}.

(** [StringIO.write(s)] on one of the two buffers of a run. *)
Definition capture (is_stderr : bool) (s : string) (r : Run) : Run :=
  {| pc := pc r; code := code r; stdout_q := stdout_q r; stderr_q := stderr_q r;
     captured_stdout := if is_stderr then captured_stdout r else captured_stdout r +:+ s;
     captured_stderr := if is_stderr then captured_stderr r +:+ s else captured_stderr r;
     old_stdout := old_stdout r; old_stderr := old_stderr r |}.

(** [StringIO.getvalue()]. *)
Definition getvalue (is_stderr : bool) (r : Run) : string :=
  if is_stderr then captured_stderr r else captured_stdout r.

Definition set_response_queue (x : nat) (σ : State) : State :=
  {| response_queue := x; pending_prompts := pending_prompts σ; queues := queues σ;
     events := events σ; sys_stdout := sys_stdout σ; sys_stderr := sys_stderr σ;
     console := console σ; uuid_calls := uuid_calls σ; runs := runs σ; calls := calls σ |}.
Definition set_pending_prompts (x : gmap string Pending) (σ : State) : State :=
  {| response_queue := response_queue σ; pending_prompts := x; queues := queues σ;
     events := events σ; sys_stdout := sys_stdout σ; sys_stderr := sys_stderr σ;
     console := console σ; uuid_calls := uuid_calls σ; runs := runs σ; calls := calls σ |}.
Definition set_queues (x : list (list ServerMessage)) (σ : State) : State :=
  {| response_queue := response_queue σ; pending_prompts := pending_prompts σ; queues := x;
     events := events σ; sys_stdout := sys_stdout σ; sys_stderr := sys_stderr σ;
     console := console σ; uuid_calls := uuid_calls σ; runs := runs σ; calls := calls σ |}.
Definition set_events (x : list bool) (σ : State) : State :=
  {| response_queue := response_queue σ; pending_prompts := pending_prompts σ; queues := queues σ;
     events := x; sys_stdout := sys_stdout σ; sys_stderr := sys_stderr σ;
     console := console σ; uuid_calls := uuid_calls σ; runs := runs σ; calls := calls σ |}.
Definition set_sys_stdout (x : TextIO) (σ : State) : State :=
  {| response_queue := response_queue σ; pending_prompts := pending_prompts σ; queues := queues σ;
     events := events σ; sys_stdout := x; sys_stderr := sys_stderr σ;
     console := console σ; uuid_calls := uuid_calls σ; runs := runs σ; calls := calls σ |}.
Definition set_sys_stderr (x : TextIO) (σ : State) : State :=
  {| response_queue := response_queue σ; pending_prompts := pending_prompts σ; queues := queues σ;
     events := events σ; sys_stdout := sys_stdout σ; sys_stderr := x;
     console := console σ; uuid_calls := uuid_calls σ; runs := runs σ; calls := calls σ |}.
Definition set_console (x : list string) (σ : State) : State :=
  {| response_queue := response_queue σ; pending_prompts := pending_prompts σ; queues := queues σ;
     events := events σ; sys_stdout := sys_stdout σ; sys_stderr := sys_stderr σ;
     console := x; uuid_calls := uuid_calls σ; runs := runs σ; calls := calls σ |}.
Definition set_uuid_calls (x : nat) (σ : State) : State :=
  {| response_queue := response_queue σ; pending_prompts := pending_prompts σ; queues := queues σ;
     events := events σ; sys_stdout := sys_stdout σ; sys_stderr := sys_stderr σ;
     console := console σ; uuid_calls := x; runs := runs σ; calls := calls σ |}.
Definition set_runs (x : list Run) (σ : State) : State :=
  {| response_queue := response_queue σ; pending_prompts := pending_prompts σ; queues := queues σ;
     events := events σ; sys_stdout := sys_stdout σ; sys_stderr := sys_stderr σ;
     console := console σ; uuid_calls := uuid_calls σ; runs := x; calls := calls σ |}.
Definition set_calls (x : list Call) (σ : State) : State :=
  {| response_queue := response_queue σ; pending_prompts := pending_prompts σ; queues := queues σ;
     events := events σ; sys_stdout := sys_stdout σ; sys_stderr := sys_stderr σ;
     console := console σ; uuid_calls := uuid_calls σ; runs := runs σ; calls := x |}.

(** Update of the local variables of run [t]. *)
Definition on_run (t : nat) (f : Run → Run) (σ : State) : State :=
  set_runs (alter f t (runs σ)) σ.

(** ** Operations *)

(** [SandboxServicer.__init__]: a first queue, an empty table. *)
Definition init : State :=
  {| response_queue := 0; pending_prompts := ∅; queues := [[]]; events := [];
     sys_stdout := Console; sys_stderr := Console; console := [];
     uuid_calls := 0; runs := []; calls := [] |}.

(** [queue.Queue.put] on queue object [qi]: append at the tail. *)
Definition put (qi : nat) (m : ServerMessage) (σ : State) : State :=
  set_queues (alter (λ l, l ++ [m]) qi (queues σ)) σ.

(** [OutputStream.write]: the state after the call, what it enqueued, and
    the value it returns. *)
Definition OutputStream_write (qi : nat) (is_stderr : bool) (s : string) (σ : State)
  : State * list Effect * nat :=
  if bool_decide (s = "")
  then (σ, [], String.length s)
  else (put qi (Output s is_stderr) σ, [EPut qi (Output s is_stderr)], String.length s).

(** [_handle_prompt_response], the critical section under [self.lock]. *)
Definition _handle_prompt_response (id resp : string) (σ : State) : State * list Effect :=
  match pending_prompts σ !! id with
  | Some ent =>
      (set_events (<[event ent := true]> (events σ))
         (set_pending_prompts
            (<[id := {| event := event ent; response := Some resp |}]> (pending_prompts σ)) σ),
       [EResolve id resp])
  | None => (σ, [])
  end.

(** A run thread as [threading.Thread(target=self._handle_run_cell)] creates it. *)
Definition new_run (c : string) : Run :=
  {| pc := PcStdoutStream; code := c; stdout_q := 0; stderr_q := 0;
     captured_stdout := ""; captured_stderr := "";
     old_stdout := Console; old_stderr := Console |}.

(** One iteration of the [for req in request_iterator] loop. *)
Definition _consume_requests (req : ClientMessage) (σ : State) : State * list Effect :=
  match req with
  | RunCellRequest c => (set_runs (runs σ ++ [new_run c]) σ, [])
  | PromptModelResponse id resp => _handle_prompt_response id resp σ
  | CancelRequest => (σ, [])
  | NoPayload => (σ, [])
  end.

(** The first lines of [RunStream]: a new queue replaces [self.response_queue]. *)
Definition RunStream_open (σ : State) : State :=
  let qi := length (queues σ) in
  set_calls (calls σ ++ [ {| q := qi; is_active := true; looping := true |} ])
    (set_response_queue qi (set_queues (queues σ ++ [[]]) σ)).

(** One iteration of the [while True] loop of [RunStream]: [q.get] with
    its timeout, [yield], or the [is_active] test when the queue is empty. *)
Definition RunStream_loop (sid : nat) (σ : State) : option (State * list Effect) :=
  c ← calls σ !! sid;
  if looping c then
    match queues σ !! q c with
    | Some (m :: rest) => Some (set_queues (<[q c := rest]> (queues σ)) σ, [EYield m])
    | _ =>
        if is_active c then Some (σ, [])
        else Some (set_calls (<[sid := {| q := q c; is_active := false; looping := false |}]> (calls σ)) σ, [])
    end
  else None.

Definition resume (k : Kont) : Pc :=
  match k with
  | KCell c => PcRunCell c
  | KExit => PcExitStderr
  end.

(** What the process takes from outside the servicer. *)
Class Env := {
  (** the engine, [self.ipy.run_cell]: what running [code] does *)
  ipy_run_cell : string → Cell;
  (** [str(uuid.uuid4())], as a function of the number of earlier calls *)
  uuid4 : nat → string
}.

Section Servicer.

Context {env : Env}.

(** One step of run thread [t], whose local variables are [r]. *)
Definition step_run (t : nat) (r : Run) (σ : State) : option (State * list Effect) :=
  match pc r with
  | PcStdoutStream =>
      Some (on_run t (λ r, with_pc PcStderrStream (with_stdout_q (response_queue σ) r)) σ, [])
  | PcStderrStream =>
      Some (on_run t (λ r, with_pc PcEnterStdout (with_stderr_q (response_queue σ) r)) σ, [])
  | PcEnterStdout =>
      Some (on_run t (λ r, with_pc PcEnterStderr (with_old_stdout (sys_stdout σ) r))
              (set_sys_stdout (TeeStream (stdout_q r) false t) σ), [])
  | PcEnterStderr =>
      Some (on_run t (λ r, with_pc (PcRunCell (ipy_run_cell (code r)))
                             (with_old_stderr (sys_stderr σ) r))
              (set_sys_stderr (TeeStream (stderr_q r) true t) σ), [])
  | PcRunCell Return =>
      Some (on_run t (with_pc PcExitStderr) σ, [])
  | PcRunCell (Raise e) =>
      Some (on_run t (with_pc (PcWrite (TeeStream (stderr_q r) true t) e KExit)) σ, [])
  | PcRunCell (WriteOut s k) =>
      Some (on_run t (with_pc (PcWrite (sys_stdout σ) s (KCell k))) σ, [])
  | PcRunCell (WriteErr s k) =>
      Some (on_run t (with_pc (PcWrite (sys_stderr σ) s (KCell k))) σ, [])
  | PcRunCell (CallPromptModel p k) =>
      let req_id := uuid4 (uuid_calls σ) in
      let ev := length (events σ) in
      Some (on_run t (with_pc (PcPromptPut req_id ev p k))
              (set_pending_prompts
                 (<[req_id := {| event := ev; response := None |}]> (pending_prompts σ))
                 (set_events (events σ ++ [false])
                    (set_uuid_calls (S (uuid_calls σ)) σ))),
            [ERegister req_id p])
  | PcRunCell (CallPromptSelf m k) =>
      Some (on_run t (with_pc (PcRunCell k)) (put (response_queue σ) (PromptSelfRequest m) σ),
            [EPut (response_queue σ) (PromptSelfRequest m)])
  | PcWrite Console s k =>
      Some (on_run t (with_pc (resume k))
              (set_console (console σ ++ [s]) σ), [])
  | PcWrite (TeeStream qi b owner) s k =>
      let '(σ', effs, _) := OutputStream_write qi b s σ in
      Some (on_run t (with_pc (PcTeeCapture owner b s k)) σ', effs)
  | PcTeeCapture owner b s k =>
      Some (on_run t (with_pc (resume k)) (on_run owner (capture b s) σ), [])
  | PcPromptPut req_id ev p k =>
      Some (on_run t (with_pc (PcPromptWait req_id ev k))
              (put (response_queue σ) (PromptModelRequest p req_id) σ),
            [EPut (response_queue σ) (PromptModelRequest p req_id)])
  | PcPromptWait req_id ev k =>
      if bool_decide (events σ !! ev = Some true)
      then Some (on_run t (with_pc (PcPromptPop req_id k)) σ, [])
      else None
  | PcPromptPop req_id k =>
      match pending_prompts σ !! req_id with
      | Some data =>
          Some (on_run t (with_pc (PcRunCell (k (Returns (response data)))))
                  (set_pending_prompts (delete req_id (pending_prompts σ)) σ),
                [EReturn req_id (Returns (response data))])
      | None =>
          Some (on_run t (with_pc (PcRunCell (k (Raises "KeyError")))) σ,
                [EReturn req_id (Raises "KeyError")])
      end
  | PcExitStderr =>
      Some (on_run t (with_pc PcExitStdout) (set_sys_stderr (old_stderr r) σ), [])
  | PcExitStdout =>
      Some (on_run t (with_pc PcResult1) (set_sys_stdout (old_stdout r) σ), [])
  | PcResult1 =>
      Some (on_run t (with_pc (PcResult2 (getvalue false r))) σ, [])
  | PcResult2 o1 =>
      Some (on_run t (with_pc (PcResult3 (o1 +:+ getvalue true r))) σ, [])
  | PcResult3 out =>
      Some (on_run t (with_pc (PcResult4 out (getvalue false r))) σ, [])
  | PcResult4 out so =>
      Some (on_run t (with_pc (PcPutResult out so (getvalue true r))) σ, [])
  | PcPutResult out so se =>
      Some (on_run t (with_pc PcDone)
              (put (response_queue σ) (RunCellResult out so se true) σ),
            [EPut (response_queue σ) (RunCellResult out so se true)])
  | PcDone => None
  end.

(** One step of the process.  [None]: the event cannot happen in this
    state (no such thread or call, a thread that has finished or that is
    blocked in [event.wait()], a loop that has stopped). *)
Definition step (e : Event) (σ : State) : option (State * list Effect) :=
  match e with
  | OpenStream => Some (RunStream_open σ, [EOpen (length (queues σ))])
  | Recv sid req => _ ← calls σ !! sid; Some (_consume_requests req σ)
  | Sched t => r ← runs σ !! t; step_run t r σ
  | Drain sid => RunStream_loop sid σ
  | Disconnect sid =>
      c ← calls σ !! sid;
      Some (set_calls (<[sid := {| q := q c; is_active := false; looping := looping c |}]> (calls σ)) σ, [])
  end.

(** A schedule, run from [σ]: the final state and the log of effects,
    each with the event that caused it. *)
Fixpoint exec (tr : list Event) (σ : State) : option (State * list (Event * Effect)) :=
  match tr with
  | [] => Some (σ, [])
  | e :: tr' =>
      '(σ1, effs) ← step e σ;
      '(σ2, log) ← exec tr' σ1;
      Some (σ2, ((λ x, (e, x)) <$> effs) ++ log)
  end.

End Servicer.

(** ** Views of a log *)

(** Messages put on queue [qi], in order. *)
Definition puts_on (qi : nat) (log : list (Event * Effect)) : list ServerMessage :=
  omap (λ x, match x.2 with
             | EPut qj m => if decide (qj = qi) then Some m else None
             | _ => None
             end) log.

(** Messages that a list of effects puts on queue [qi]. *)
Definition puts_in (qi : nat) (effs : list Effect) : list ServerMessage :=
  omap (λ x, match x with
             | EPut qj m => if decide (qj = qi) then Some m else None
             | _ => None
             end) effs.

(** Messages that the loop of call [sid] yielded, in order. *)
Definition yields_of (sid : nat) (log : list (Event * Effect)) : list ServerMessage :=
  omap (λ x, match x with
             | (Drain s, EYield m) => if decide (s = sid) then Some m else None
             | _ => None
             end) log.

(** Messages that run thread [t] put on a queue, in order. *)
Definition puts_by (t : nat) (log : list (Event * Effect)) : list (nat * ServerMessage) :=
  omap (λ x, match x with
             | (Sched u, EPut qi m) => if decide (u = t) then Some (qi, m) else None
             | _ => None
             end) log.

(** Answers stored for [id], in order. *)
Definition resolves (id : string) (log : list (Event * Effect)) : list string :=
  omap (λ x, match x.2 with
             | EResolve i v => if decide (i = id) then Some v else None
             | _ => None
             end) log.

(** Ids under which an entry was stored, and ids whose [prompt_model] returned. *)
Definition registered (log : list (Event * Effect)) : list string :=
  omap (λ x, match x.2 with ERegister i _ => Some i | _ => None end) log.

Definition returned (log : list (Event * Effect)) : list string :=
  omap (λ x, match x.2 with EReturn i _ => Some i | _ => None end) log.

(** The [RunCellResult] messages among [l]. *)
Definition is_result (m : ServerMessage) : bool :=
  match m with RunCellResult _ _ _ _ => true | _ => false end.

(** ** Vocabulary of the properties *)

Section Vocabulary.

Context {env : Env}.

(** [e] occurs in [s]. *)
Definition contains (e s : string) : Prop := ∃ pre post, s = pre +:+ e +:+ post.

(** [r'] is [r] after writes of other threads through its tees: the
    program point and the local variables are the same, and each buffer
    has only grown at its end. *)
Definition grown (r r' : Run) : Prop :=
  pc r' = pc r ∧ code r' = code r ∧
  stdout_q r' = stdout_q r ∧ stderr_q r' = stderr_q r ∧
  old_stdout r' = old_stdout r ∧ old_stderr r' = old_stderr r ∧
  (∃ x, captured_stdout r' = captured_stdout r +:+ x) ∧
  (∃ y, captured_stderr r' = captured_stderr r +:+ y).

(** The queue and message of each [put] among [effs]. *)
Definition puts_of (effs : list Effect) : list (nat * ServerMessage) :=
  omap (λ x, match x with EPut qi m => Some (qi, m) | _ => None end) effs.

(** What [OutputStream(qi, b).write(s)] puts. *)
Definition fragment (qi : nat) (s : string) (b : bool) : list (nat * ServerMessage) :=
  if decide (s = "") then [] else [(qi, Output s b)].

(** Number of steps that thread [t] takes in a schedule. *)
Definition steps_of (t : nat) (tr : list Event) : nat :=
  length (filter (λ e, e = Sched t) tr).

(** Where run [t] is, [n] steps after [run_cell] raised [e], having put
    [ps] since; [qe] is the queue of its [stderr_stream]. *)
Definition raise_phase (e : string) (t qe : nat) (r : Run)
    (ps : list (nat * ServerMessage)) (n : nat) : Prop :=
  stderr_q r = qe ∧
  match pc r with
  | PcRunCell (Raise e') => e' = e ∧ ps = [] ∧ n = 0
  | PcWrite (TeeStream qi true u) s KExit => s = e ∧ u = t ∧ qi = qe ∧ ps = [] ∧ n = 1
  | PcTeeCapture u true s KExit => s = e ∧ u = t ∧ ps = fragment qe e true ∧ n = 2
  | PcExitStderr => ps = fragment qe e true ∧ contains e (captured_stderr r) ∧ n = 3
  | PcExitStdout => ps = fragment qe e true ∧ contains e (captured_stderr r) ∧ n = 4
  | PcResult1 => ps = fragment qe e true ∧ contains e (captured_stderr r) ∧ n = 5
  | PcResult2 _ => ps = fragment qe e true ∧ contains e (captured_stderr r) ∧ n = 6
  | PcResult3 out =>
      ps = fragment qe e true ∧ contains e (captured_stderr r) ∧ contains e out ∧ n = 7
  | PcResult4 out _ =>
      ps = fragment qe e true ∧ contains e (captured_stderr r) ∧ contains e out ∧ n = 8
  | PcPutResult out so se =>
      ps = fragment qe e true ∧ contains e (captured_stderr r) ∧ contains e out ∧
      contains e se ∧ n = 9
  | PcDone =>
      (∃ qi out so se, ps = fragment qe e true ++ [(qi, RunCellResult out so se true)] ∧
                       contains e out ∧ contains e se) ∧
      contains e (captured_stderr r) ∧ n = 10
  | _ => False
  end.

(** Where a run is in a call of [prompt_model], if it is in one. *)
Inductive Ask :=
| NoAsk
| AskPut (id : string) (ev : nat) (p : string)    (* registered, request not yet put *)
| AskWait (id : string) (ev : nat)                (* in [event.wait()] *)
| AskPop (id : string).                           (* woken, entry not yet popped *)

Definition ask_of (x : Pc) : Ask :=
  match x with
  | PcPromptPut id ev p _ => AskPut id ev p
  | PcPromptWait id ev _ => AskWait id ev
  | PcPromptPop id _ => AskPop id
  | _ => NoAsk
  end.

Definition ask_id (a : Ask) : option string :=
  match a with
  | NoAsk => None
  | AskPut id _ _ | AskWait id _ | AskPop id => Some id
  end.

Definition asks (σ : State) : list Ask := (λ r, ask_of (pc r)) <$> runs σ.

(** Effects that do not concern the table. *)
Definition quiet (x : Effect) : Prop :=
  match x with
  | ERegister _ _ | EResolve _ _ | EReturn _ _ | EOpen _
  | EPut _ (PromptModelRequest _ _) => False
  | _ => True
  end.

(** How a step acts on the table, the events, the id source and the asks
    in flight. *)
Inductive ask_step (σ σ' : State) (e : Event) (effs : list Effect) : Prop :=
| ask_idle :
    pending_prompts σ' = pending_prompts σ → events σ' = events σ →
    uuid_calls σ' = uuid_calls σ → response_queue σ' = response_queue σ →
    asks σ' = asks σ ∨ asks σ' = asks σ ++ [NoAsk] →
    Forall quiet effs →
    ask_step σ σ' e effs
| ask_open :
    pending_prompts σ' = pending_prompts σ → events σ' = events σ →
    uuid_calls σ' = uuid_calls σ → asks σ' = asks σ →
    effs = [EOpen (response_queue σ')] →
    ask_step σ σ' e effs
| ask_register t id ev p :
    e = Sched t → asks σ !! t = Some NoAsk →
    id = uuid4 (uuid_calls σ) → ev = length (events σ) →
    pending_prompts σ' = <[id := {| event := ev; response := None |}]> (pending_prompts σ) →
    events σ' = events σ ++ [false] → uuid_calls σ' = S (uuid_calls σ) →
    response_queue σ' = response_queue σ →
    asks σ' = <[t := AskPut id ev p]> (asks σ) →
    effs = [ERegister id p] →
    ask_step σ σ' e effs
| ask_send t id ev p :
    e = Sched t → asks σ !! t = Some (AskPut id ev p) →
    pending_prompts σ' = pending_prompts σ → events σ' = events σ →
    uuid_calls σ' = uuid_calls σ → response_queue σ' = response_queue σ →
    asks σ' = <[t := AskWait id ev]> (asks σ) →
    effs = [EPut (response_queue σ) (PromptModelRequest p id)] →
    ask_step σ σ' e effs
| ask_wake t id ev :
    e = Sched t → asks σ !! t = Some (AskWait id ev) →
    events σ !! ev = Some true →
    pending_prompts σ' = pending_prompts σ → events σ' = events σ →
    uuid_calls σ' = uuid_calls σ → response_queue σ' = response_queue σ →
    asks σ' = <[t := AskPop id]> (asks σ) →
    effs = [] →
    ask_step σ σ' e effs
| ask_pop t id :
    e = Sched t → asks σ !! t = Some (AskPop id) →
    pending_prompts σ' = delete id (pending_prompts σ) → events σ' = events σ →
    uuid_calls σ' = uuid_calls σ → response_queue σ' = response_queue σ →
    asks σ' = <[t := NoAsk]> (asks σ) →
    effs = [EReturn id (match pending_prompts σ !! id with
                        | Some data => Returns (response data)
                        | None => Raises "KeyError"
                        end)] →
    ask_step σ σ' e effs
| ask_resolve sid id v ent :
    e = Recv sid (PromptModelResponse id v) →
    pending_prompts σ !! id = Some ent →
    pending_prompts σ' =
      <[id := {| event := event ent; response := Some v |}]> (pending_prompts σ) →
    events σ' = <[event ent := true]> (events σ) →
    uuid_calls σ' = uuid_calls σ → response_queue σ' = response_queue σ →
    asks σ' = asks σ →
    effs = [EResolve id v] →
    ask_step σ σ' e effs.

(** Queues installed as [self.response_queue], in order, and the one that
    is installed after [log] (queue 0 is the one of [__init__]). *)
Definition opened (log : list (Event * Effect)) : list nat :=
  omap (λ x, match x.2 with EOpen qi => Some qi | _ => None end) log.

Definition current_queue (log : list (Event * Effect)) : nat :=
  default 0 (last (opened log)).

(** The part of the log that belongs to the ask that run [t] is in:
    its registration, then its request, put on the queue installed at that
    moment; and the entry in the table holds the last answer stored since
    the registration. *)
Definition ask_history (t : nat) (a : Ask) (σ : State) (log : list (Event * Effect)) : Prop :=
  match a with
  | NoAsk => True
  | AskPut id ev p =>
      ∃ l1 l2,
        log = l1 ++ (Sched t, ERegister id p) :: l2 ∧
        pending_prompts σ !! id = Some {| event := ev; response := last (resolves id l2) |} ∧
        (events σ !! ev = Some true ↔ is_Some (last (resolves id l2)))
  | AskWait id ev =>
      ∃ l1 l2 l3 p,
        log = l1 ++ (Sched t, ERegister id p) :: l2 ++
              (Sched t, EPut (current_queue (l1 ++ (Sched t, ERegister id p) :: l2))
                             (PromptModelRequest p id)) :: l3 ∧
        pending_prompts σ !! id =
          Some {| event := ev; response := last (resolves id (l2 ++ l3)) |} ∧
        (events σ !! ev = Some true ↔ is_Some (last (resolves id (l2 ++ l3))))
  | AskPop id =>
      ∃ l1 l2 l3 p ev,
        log = l1 ++ (Sched t, ERegister id p) :: l2 ++
              (Sched t, EPut (current_queue (l1 ++ (Sched t, ERegister id p) :: l2))
                             (PromptModelRequest p id)) :: l3 ∧
        pending_prompts σ !! id =
          Some {| event := ev; response := last (resolves id (l2 ++ l3)) |} ∧
        is_Some (last (resolves id (l2 ++ l3)))
  end.

(** The invariant of the table. *)
Record ask_inv (σ : State) (log : list (Event * Effect)) : Prop := {
  inv_queue : response_queue σ = current_queue log;
  inv_registered : registered log = uuid4 <$> seq 0 (uuid_calls σ);
  inv_returned : ∀ id, id ∈ returned log →
                       id ∈ registered log ∧ pending_prompts σ !! id = None;
  inv_owner : ∀ id, is_Some (pending_prompts σ !! id) →
                    ∃ t a, asks σ !! t = Some a ∧ ask_id a = Some id;
  inv_inflight : ∀ t a id, asks σ !! t = Some a → ask_id a = Some id →
                           id ∈ registered log ∧ is_Some (pending_prompts σ !! id);
  inv_unique : ∀ t1 t2 a1 a2 id,
      asks σ !! t1 = Some a1 → asks σ !! t2 = Some a2 →
      ask_id a1 = Some id → ask_id a2 = Some id → t1 = t2;
  inv_event_lt : ∀ id ent, pending_prompts σ !! id = Some ent →
                           event ent < length (events σ);
  inv_event_inj : ∀ id1 id2 ent1 ent2,
      pending_prompts σ !! id1 = Some ent1 → pending_prompts σ !! id2 = Some ent2 →
      event ent1 = event ent2 → id1 = id2;
  inv_history : ∀ t a, asks σ !! t = Some a → ask_history t a σ log
}.


(** *** A run that no other run disturbs *)

(** The cell does not call [prompt_model]. *)
Fixpoint ask_free (c : Cell) : Prop :=
  match c with
  | Return | Raise _ => True
  | WriteOut _ k | WriteErr _ k | CallPromptSelf _ k => ask_free k
  | CallPromptModel _ _ => False
  end.





Fixpoint cell_steps (c : Cell) : nat :=
  match c with
  | WriteOut _ k | WriteErr _ k => 3 + cell_steps k
  | CallPromptSelf _ k => 1 + cell_steps k
  | Raise _ => 3
  | _ => 1
  end.

(** The same for what is left to do at a program point inside the [with]
    block. *)
Definition kont_cell (k : Kont) : Cell :=
  match k with KCell c => c | KExit => Return end.

Definition kont_steps (k : Kont) : nat :=
  match k with KCell c => cell_steps c | KExit => 0 end.



Definition rest_steps (x : Pc) : nat :=
  match x with
  | PcRunCell c => cell_steps c + 7
  | PcWrite _ _ k => 2 + kont_steps k + 7
  | PcTeeCapture _ _ _ k => 1 + kont_steps k + 7
  | PcExitStderr => 7
  | PcExitStdout => 6
  | PcResult1 => 5
  | PcResult2 _ => 4
  | PcResult3 _ => 3
  | PcResult4 _ _ => 2
  | PcPutResult _ _ _ => 1
  | _ => 0
  end.



End Vocabulary.

(** ** Scenarios *)

(** An engine for the examples: what a few cells do when run. *)
Definition demo_engine (c : string) : Cell :=
  if decide (c = "print('a')") then WriteOut "a" Return
  else if decide (c = "print('b')") then WriteOut "b" Return
  else if decide (c = "print(prompt_model('name?'))") then
    CallPromptModel "name?"
      (λ o, match o with Returns (Some v) => WriteOut v Return | _ => Return end)
  else if decide (c = "boom") then Raise "engine down"
  else Return.

(** The engine of the examples, with a source of ids without collisions. *)
Definition demo_env : Env :=
  {| ipy_run_cell := demo_engine; uuid4 := pretty |}.

(** Schedules of the examples.  [Sched t] events are grouped by the part of
    [_handle_run_cell] they execute. *)

(** A call is opened and one cell that prompts is submitted; the run sets
    up its streams (4 steps), registers and puts its request (2 steps). *)
Definition ask_schedule : list Event :=
  [OpenStream; Recv 0 (RunCellRequest "print(prompt_model('name?'))")] ++
  repeat (Sched 0) 6.

(** Two cells are submitted together.  Run 0 installs its streams, then
    run 1 installs its own; run 0 runs to its end (11 steps), then run 1
    (10 steps: its write goes to the console). *)
Definition overlap_schedule : list Event :=
  [OpenStream; Recv 0 (RunCellRequest "print('a')"); Recv 0 (RunCellRequest "print('b')")] ++
  repeat (Sched 0) 4 ++ repeat (Sched 1) 4 ++
  repeat (Sched 0) 11 ++ repeat (Sched 1) 10.

(** The same two cells.  Run 0 is suspended inside [TeeStream.write],
    between [stream1.write] and [stream2.write], and resumes while run 1
    is building its result, between the reads for [output] and [stdout]. *)
Definition race_schedule : list Event :=
  [OpenStream; Recv 0 (RunCellRequest "print('a')"); Recv 0 (RunCellRequest "print('b')")] ++
  repeat (Sched 0) 4 ++ repeat (Sched 1) 4 ++
  repeat (Sched 0) 2 ++ repeat (Sched 1) 8 ++ [Sched 0] ++ repeat (Sched 1) 3.

(** The state that a schedule reaches from [__init__] ([init] itself
    when the schedule cannot be run). *)
Definition state_after `{Env} (tr : list Event) : State :=
  default init (fst <$> exec tr init).

(** The log of a schedule run from [__init__]. *)
Definition log_after `{Env} (tr : list Event) : list (Event * Effect) :=
  default [] (snd <$> exec tr init).

(** ** Vocabulary of the properties of all schedules *)

(** The codes of the [run_cell] requests that a schedule delivers, in
    order. *)
Definition run_cell_codes (tr : list Event) : list string :=
  omap (λ e, match e with Recv _ (RunCellRequest c) => Some c | _ => None end) tr.

(** No message of [ps] is a [RunCellResult]. *)
Definition no_result (ps : list (nat * ServerMessage)) : Prop :=
  Forall (λ x, is_result x.2 = false) ps.

(** What a run has put so far: no result while it is running, and when it
    is done one result, put last. *)
Definition result_last (r : Run) (ps : list (nat * ServerMessage)) : Prop :=
  match pc r with
  | PcDone =>
      ∃ ps' qi out so se, ps = ps' ++ [(qi, RunCellResult out so se true)] ∧ no_result ps'
  | _ => no_result ps
  end.

(** [out] is made of a first part [o1] and a second part [e1]; [so] begins
    with [o1] and [se] begins with [e1]. *)
Definition extends_parts (out so se : string) : Prop :=
  ∃ o1 e1 x y, out = o1 +:+ e1 ∧ so = o1 +:+ x ∧ se = e1 +:+ y.

(** What the reads of l.170-172 made so far have in common with the two
    buffers of the run. *)
Definition result_parts (r : Run) : Prop :=
  match pc r with
  | PcResult2 o1 => ∃ x, captured_stdout r = o1 +:+ x
  | PcResult3 out => extends_parts out (captured_stdout r) (captured_stderr r)
  | PcResult4 out so => extends_parts out so (captured_stderr r)
  | PcPutResult out so se => extends_parts out so se
  | _ => True
  end.

Definition result_message_parts (x : Event * Effect) : Prop :=
  match x.2 with
  | EPut _ (RunCellResult out so se b) => b = true ∧ extends_parts out so se
  | _ => True
  end.

(** Queue [qi] is, or was, installed as [self.response_queue]. *)
Definition installed (log : list (Event * Effect)) (qi : nat) : Prop :=
  qi ∈ 0 :: opened log.

Definition tee_installed (log : list (Event * Effect)) (f : TextIO) : Prop :=
  match f with
  | Console => True
  | TeeStream qi _ _ => installed log qi
  end.

Definition is_output (m : ServerMessage) : bool :=
  match m with Output _ _ => true | _ => false end.

(** Where the queues that the process refers to come from. *)
Definition queues_inv (σ : State) (log : list (Event * Effect)) : Prop :=
  response_queue σ = current_queue log ∧
  tee_installed log (sys_stdout σ) ∧ tee_installed log (sys_stderr σ) ∧
  ∀ t r, runs σ !! t = Some r →
    installed log (stdout_q r) ∧ installed log (stderr_q r) ∧
    tee_installed log (old_stdout r) ∧ tee_installed log (old_stderr r) ∧
    match pc r with
    | PcWrite f _ _ => tee_installed log f
    | _ => True
    end.

(** The put at each place of the log is on a queue installed before, and
    on the one installed last unless the message is an [Output]. *)
Definition puts_on_installed (log : list (Event * Effect)) : Prop :=
  ∀ pre e qi m post, log = pre ++ (e, EPut qi m) :: post →
    installed pre qi ∧ (is_output m = false → qi = current_queue pre).

(** A call and its queue: call [sid] has queue [S sid] (queue 0 is the one
    of [__init__]); what it has yielded and what is left in its queue is
    what was put on the queue; and when its loop has stopped, the peer was
    gone and the queue was empty at that moment. *)
Definition call_ok (tr : list Event) (σ : State) (log : list (Event * Effect))
    (sid : nat) (c : Call) : Prop :=
  q c = S sid ∧
  (is_active c = false → Disconnect sid ∈ tr) ∧
  ∃ l, queues σ !! q c = Some l ∧
       yields_of sid log ++ l = puts_on (q c) log ∧
       (looping c = false →
        is_active c = false ∧
        ∃ l1 l2, log = l1 ++ l2 ∧ yields_of sid log = puts_on (q c) l1 ∧
                 l = puts_on (q c) l2).

(** The calls and the queues: one queue per call and the one of
    [__init__], installed in the order of the calls; nothing is yielded for
    a call, and nothing is put on a queue, that does not exist yet. *)
Definition call_inv (tr : list Event) (σ : State) (log : list (Event * Effect)) : Prop :=
  length (queues σ) = S (length (calls σ)) ∧
  opened log = seq 1 (length (calls σ)) ∧
  (∀ sid, length (calls σ) ≤ sid → yields_of sid log = []) ∧
  (∀ qi, length (queues σ) ≤ qi → puts_on qi log = []) ∧
  ∀ sid c, calls σ !! sid = Some c → call_ok tr σ log sid c.

(** Events that are not steps of a run other than [t]. *)
Definition only_run (t : nat) (e : Event) : Prop :=
  match e with
  | Sched u => u = t
  | _ => True
  end.

(** The program points inside the [with] block of l.160, and those after it. *)
Definition inside_with (x : Pc) : bool :=
  match x with
  | PcRunCell _ | PcWrite _ _ _ | PcTeeCapture _ _ _ _
  | PcPromptPut _ _ _ _ | PcPromptWait _ _ _ | PcPromptPop _ _ | PcExitStderr => true
  | _ => false
  end.

Definition past_with (x : Pc) : bool :=
  match x with
  | PcResult1 | PcResult2 _ | PcResult3 _ | PcResult4 _ _ | PcPutResult _ _ _ | PcDone => true
  | _ => false
  end.

(** What [sys.stdout] and [sys.stderr] are bound to while run [t] goes
    through its [with] block and no other run moves; [s0] and [e0] are
    what they were bound to before, and [c0] is what had been written to
    the streams of the process. *)
Definition restore_phase (s0 e0 : TextIO) (c0 : list string) (t : nat)
    (σ : State) (r : Run) : Prop :=
  console σ = c0 ∧
  match pc r with
  | PcStdoutStream | PcStderrStream | PcEnterStdout =>
      sys_stdout σ = s0 ∧ sys_stderr σ = e0
  | PcEnterStderr =>
      old_stdout r = s0 ∧ sys_stdout σ = TeeStream (stdout_q r) false t ∧ sys_stderr σ = e0
  | PcExitStdout =>
      old_stdout r = s0 ∧ sys_stdout σ = TeeStream (stdout_q r) false t ∧ sys_stderr σ = e0
  | PcResult1 | PcResult2 _ | PcResult3 _ | PcResult4 _ _ | PcPutResult _ _ _ | PcDone =>
      sys_stdout σ = s0 ∧ sys_stderr σ = e0
  | _ =>
      old_stdout r = s0 ∧ old_stderr r = e0 ∧
      sys_stdout σ = TeeStream (stdout_q r) false t ∧
      sys_stderr σ = TeeStream (stderr_q r) true t ∧
      match pc r with
      | PcWrite f _ _ => f ≠ Console
      | _ => True
      end
  end.

(** The notices ([prompt_self]) of a cell, and those among messages put. *)
Fixpoint cell_notices (c : Cell) : list string :=
  match c with
  | CallPromptSelf m k => m :: cell_notices k
  | WriteOut _ k | WriteErr _ k => cell_notices k
  | _ => []
  end.

Definition notices (ps : list (nat * ServerMessage)) : list string :=
  omap (λ x, match x.2 with PromptSelfRequest m => Some m | _ => None end) ps.

(** The [Output] messages of the writes of a cell, in order (none for a
    write of the empty string), and those among messages put. *)
Definition frag (s : string) (b : bool) : list ServerMessage :=
  if decide (s = "") then [] else [Output s b].

Fixpoint cell_outputs (c : Cell) : list ServerMessage :=
  match c with
  | WriteOut s k => frag s false ++ cell_outputs k
  | WriteErr s k => frag s true ++ cell_outputs k
  | CallPromptSelf _ k => cell_outputs k
  | Raise e => frag e true
  | _ => []
  end.

Definition outputs (ps : list (nat * ServerMessage)) : list ServerMessage :=
  omap (λ x, if is_output x.2 then Some x.2 else None) ps.

(** A stream that [sys.stdout] ([b] false) or [sys.stderr] ([b] true) can
    be bound to: a tee has the tag of the stream it replaces. *)
Definition tag_ok (b : bool) (f : TextIO) : Prop :=
  match f with
  | Console => True
  | TeeStream _ b' _ => b' = b
  end.

Definition tags_inv (σ : State) : Prop :=
  tag_ok false (sys_stdout σ) ∧ tag_ok true (sys_stderr σ) ∧
  ∀ t r, runs σ !! t = Some r → tag_ok false (old_stdout r) ∧ tag_ok true (old_stderr r).

Section Interleavings.

Context {env : Env}.

(** The most steps that a run of cell [c] has left at a program point. *)
Definition todo (c : Cell) (x : Pc) : nat :=
  match x with
  | PcStdoutStream => 11 + cell_steps c
  | PcStderrStream => 10 + cell_steps c
  | PcEnterStdout => 9 + cell_steps c
  | PcEnterStderr => 8 + cell_steps c
  | _ => rest_steps x
  end.

(** Where a run of a cell [c] that does not prompt is after [n] steps,
    having put [ps], whatever the other threads have done. *)
Definition free_phase (c : Cell) (r : Run) (ps : list (nat * ServerMessage)) (n : nat) : Prop :=
  n + todo c (pc r) ≤ 11 + cell_steps c ∧
  match pc r with
  | PcStdoutStream | PcStderrStream | PcEnterStdout | PcEnterStderr =>
      ipy_run_cell (code r) = c ∧ ps = []
  | PcRunCell c' => ask_free c' ∧ notices ps ++ cell_notices c' = cell_notices c
  | PcWrite _ _ k | PcTeeCapture _ _ _ k =>
      ask_free (kont_cell k) ∧ notices ps ++ cell_notices (kont_cell k) = cell_notices c
  | PcPromptPut _ _ _ _ | PcPromptWait _ _ _ | PcPromptPop _ _ => False
  | _ => notices ps = cell_notices c
  end.

(** The fragments that a run has put, against the writes of its cell
    (when the cell does not prompt): those of the writes made so far, in
    order, some of them possibly missing. *)
Definition order_phase (r : Run) (ps : list (nat * ServerMessage)) : Prop :=
  let c := ipy_run_cell (code r) in
  ask_free c →
  match pc r with
  | PcStdoutStream | PcStderrStream | PcEnterStdout | PcEnterStderr => ps = []
  | PcRunCell c' =>
      ask_free c' ∧
      ∃ pre, sublist (outputs ps) pre ∧ pre ++ cell_outputs c' = cell_outputs c
  | PcWrite f s k =>
      ask_free (kont_cell k) ∧
      ∃ b pre, tag_ok b f ∧ sublist (outputs ps) pre ∧
               pre ++ frag s b ++ cell_outputs (kont_cell k) = cell_outputs c
  | PcTeeCapture _ _ _ k =>
      ask_free (kont_cell k) ∧
      ∃ pre, sublist (outputs ps) pre ∧ pre ++ cell_outputs (kont_cell k) = cell_outputs c
  | PcPromptPut _ _ _ _ | PcPromptWait _ _ _ | PcPromptPop _ _ => False
  | _ => sublist (outputs ps) (cell_outputs c)
  end.

End Interleavings.

(** * The one-shot endpoint ([pkg/sandbox/docker/image/server.py])

    The FastAPI application that runs one cell per request, with no
    stream, no prompts and no threads of its own: [run_ipython_cell] is an
    [async def] without an [await], so a request is handled from its start
    to its end on the event loop, and the handler is a function from the
    request and the state of the process to a response and a state.  The
    engine is the same external [InteractiveShell]; of one call of
    [run_cell] the handler sees the writes to [sys.stdout] and
    [sys.stderr], and the return or the exception. *)

Module Daemon.

(** What a call [ipy.run_cell(code)] does. *)
Inductive Script :=
| Return
| Raise (e : string)                          (* [str(e)] of the exception *)
| WriteOut (s : string) (k : Script)          (* [sys.stdout.write(s)] *)
| WriteErr (s : string) (k : Script).         (* [sys.stderr.write(s)] *)

Class Kernel := {
  (** the engine, [ipy.run_cell] *)
  run_cell : string → Script
}.

(** The pydantic models.  A field that is [None] is [None] here. *)
Record RunIPythonCellRequest := {
  code : string;
  split_output : option bool
}.

Record RunIPythonCellResult := {
  output : option string;
  stdout : option string;
  stderr : option string
}.

(** What the handler returns or raises. *)
Inductive Response :=
| Result (r : RunIPythonCellResult)
| HTTPException (status_code : nat) (detail : string).

(** A text stream: one that the process started with, or an [io.StringIO]
    object. *)
Inductive TextIO :=
| Console
| StringIO (i : nat).

(** The process: [sys.stdout], [sys.stderr], the [StringIO] objects, and
    what was written to the streams of the process. *)
Record Process := {
  sys_stdout : TextIO;
  sys_stderr : TextIO;
  buffers : list string;
  console : list string
}.

Definition set_sys_stdout (f : TextIO) (p : Process) : Process :=
  {| sys_stdout := f; sys_stderr := sys_stderr p; buffers := buffers p; console := console p |}.
Definition set_sys_stderr (f : TextIO) (p : Process) : Process :=
  {| sys_stdout := sys_stdout p; sys_stderr := f; buffers := buffers p; console := console p |}.

(** [io.StringIO()]: the new object and the state with it. *)
Definition StringIO_new (p : Process) : nat * Process :=
  (length (buffers p),
   {| sys_stdout := sys_stdout p; sys_stderr := sys_stderr p;
      buffers := buffers p ++ [""]; console := console p |}).

(** [f.write(s)]. *)
Definition write (f : TextIO) (s : string) (p : Process) : Process :=
  match f with
  | Console =>
      {| sys_stdout := sys_stdout p; sys_stderr := sys_stderr p;
         buffers := buffers p; console := console p ++ [s] |}
  | StringIO i =>
      {| sys_stdout := sys_stdout p; sys_stderr := sys_stderr p;
         buffers := alter (λ v, v +:+ s) i (buffers p); console := console p |}
  end.

(** [buf.getvalue()]. *)
Definition getvalue (i : nat) (p : Process) : string := default "" (buffers p !! i).

(** The call of [run_cell]: the state after it, and the exception that
    escapes it, if any. *)
Fixpoint run (c : Script) (p : Process) : Process * option string :=
  match c with
  | Return => (p, None)
  | Raise e => (p, Some e)
  | WriteOut s k => run k (write (sys_stdout p) s p)
  | WriteErr s k => run k (write (sys_stderr p) s p)
  end.

(** [with redirect_stdout(out), redirect_stderr(err): body]: the two
    streams are rebound, and bound back when the block is left, by its end
    or by an exception. *)
Definition redirect (out err : TextIO) (body : Process → Process * option string)
    (p : Process) : Process * option string :=
  let old_stdout := sys_stdout p in
  let p := set_sys_stdout out p in
  let old_stderr := sys_stderr p in
  let p := set_sys_stderr err p in
  let '(p, exc) := body p in
  let p := set_sys_stderr old_stderr p in
  let p := set_sys_stdout old_stdout p in
  (p, exc).

(** The truth value of [request.split_output]: [None] and [False] are false. *)
Definition truthy (b : option bool) : bool :=
  match b with Some true => true | _ => false end.

(** The handler of [POST /tools:run_ipython_cell]. *)
Definition run_ipython_cell `{Kernel} (request : RunIPythonCellRequest) (p : Process)
  : Response * Process :=
  if truthy (split_output request) then
    let '(stdout_buf, p) := StringIO_new p in
    let '(stderr_buf, p) := StringIO_new p in
    match redirect (StringIO stdout_buf) (StringIO stderr_buf)
            (run (run_cell (code request))) p with
    | (p, None) =>
        (Result {| output := None;
                   stdout := Some (getvalue stdout_buf p);
                   stderr := Some (getvalue stderr_buf p) |}, p)
    | (p, Some e) => (HTTPException 500 e, p)
    end
  else
    let '(output_buf, p) := StringIO_new p in
    match redirect (StringIO output_buf) (StringIO output_buf)
            (run (run_cell (code request))) p with
    | (p, None) =>
        (Result {| output := Some (getvalue output_buf p);
                   stdout := None; stderr := None |}, p)
    | (p, Some e) => (HTTPException 500 e, p)
    end.

(** The handler of [GET /healthz]. *)
Definition healthz : list (string * string) := [("status", "OK")].

(** The process at its start. *)
Definition init : Process :=
  {| sys_stdout := Console; sys_stderr := Console; buffers := []; console := [] |}.

(** *** Vocabulary *)

(** What a script writes to [sys.stdout], to [sys.stderr], and to both in
    the order of the writes; and the exception that it ends with. *)
Fixpoint script_stdout (c : Script) : string :=
  match c with
  | WriteOut s k => s +:+ script_stdout k
  | WriteErr _ k => script_stdout k
  | _ => ""
  end.

Fixpoint script_stderr (c : Script) : string :=
  match c with
  | WriteErr s k => s +:+ script_stderr k
  | WriteOut _ k => script_stderr k
  | _ => ""
  end.

Fixpoint script_output (c : Script) : string :=
  match c with
  | WriteOut s k | WriteErr s k => s +:+ script_output k
  | _ => ""
  end.

Fixpoint raises (c : Script) : option string :=
  match c with
  | Return => None
  | Raise e => Some e
  | WriteOut _ k | WriteErr _ k => raises k
  end.

(** [c] is made of the pieces of [a] and the pieces of [b], each in their
    order. *)
Inductive interleaved : string → string → string → Prop :=
| interleaved_nil : interleaved "" "" ""
| interleaved_l s a b c : interleaved a b c → interleaved (s +:+ a) b (s +:+ c)
| interleaved_r s a b c : interleaved a b c → interleaved a (s +:+ b) (s +:+ c).

End Daemon.

(** ** More scenarios *)

(** An engine with a cell that sends a notice and prints. *)
Definition notice_engine (c : string) : Cell :=
  if decide (c = "prompt_self('hi'); print(4)") then CallPromptSelf "hi" (WriteOut "4" Return)
  else demo_engine c.

Definition notice_env : Env :=
  {| ipy_run_cell := notice_engine; uuid4 := pretty |}.

Definition notice_schedule : list Event :=
  [OpenStream; Recv 0 (RunCellRequest "prompt_self('hi'); print(4)")] ++ repeat (Sched 0) 16.


(** Two cells are submitted.  The first runs to its end; the loop yields
    its fragment, the peer goes away, the loop yields the result and then
    stops; the second cell runs after that. *)
Definition hangup_schedule : list Event :=
  [OpenStream; Recv 0 (RunCellRequest "print('a')"); Recv 0 (RunCellRequest "print('b')")] ++
  repeat (Sched 0) 15 ++ [Drain 0; Disconnect 0; Drain 0; Drain 0] ++ repeat (Sched 1) 15.

(** An engine for the examples of the one-shot endpoint. *)
Definition demo_kernel : Daemon.Kernel :=
  {| Daemon.run_cell := λ c,
       if decide (c = "print('a'); warn('w'); print('b')")
       then Daemon.WriteOut "a" (Daemon.WriteErr "w" (Daemon.WriteOut "b" Daemon.Return))
       else if decide (c = "print('a'); boom")
       then Daemon.WriteOut "a" (Daemon.Raise "engine down")
       else Daemon.Return |}.

(** * Properties *)

Section Properties.

Context {env : Env}.

(** ** Schedules *)

Lemma exec_app tr1 tr2 σ :
  exec (tr1 ++ tr2) σ =
  '(σ1, l1) ← exec tr1 σ; '(σ2, l2) ← exec tr2 σ1; Some (σ2, l1 ++ l2).
Proof.
  revert σ. induction tr1 as [|e tr1 IH]; intros σ; simpl.
  - destruct (exec tr2 σ) as [[σ2 l2]|]; reflexivity.
  - destruct (step e σ) as [[σ1 effs]|]; simpl; [|reflexivity].
    rewrite IH. destruct (exec tr1 σ1) as [[σ1' l1]|]; simpl; [|reflexivity].
    destruct (exec tr2 σ1') as [[σ2 l2]|]; simpl; [|reflexivity].
    by rewrite app_assoc.
Qed.

Lemma exec_snoc tr e σ σ' log :
  exec (tr ++ [e]) σ = Some (σ', log) ↔
  ∃ σ1 l1 effs, exec tr σ = Some (σ1, l1) ∧ step e σ1 = Some (σ', effs) ∧
                log = l1 ++ ((λ x, (e, x)) <$> effs).
Proof.
  rewrite exec_app. split.
  - destruct (exec tr σ) as [[σ1 l1]|]; simpl; [|done].
    destruct (step e σ1) as [[σ2 effs]|] eqn:Hs; simpl; [|done].
    intros [= <- <-]. exists σ1, l1, effs. by rewrite app_nil_r.
  - intros (σ1 & l1 & effs & -> & Hs & ->). simpl. rewrite Hs. simpl.
    by rewrite app_nil_r.
Qed.

(** Induction on schedules from the end: a property of all reachable
    states and logs is one that holds initially and that every step keeps. *)
Lemma exec_ind (P : State → list (Event * Effect) → Prop) σ0 :
  P σ0 [] →
  (∀ σ log e σ' effs, P σ log → step e σ = Some (σ', effs) →
                      P σ' (log ++ ((λ x, (e, x)) <$> effs))) →
  ∀ tr σ log, exec tr σ0 = Some (σ, log) → P σ log.
Proof.
  intros H0 Hstep tr. induction tr as [|e tr IH] using rev_ind; intros σ log.
  - simpl. by intros [= <- <-].
  - rewrite exec_snoc. intros (σ1 & l1 & effs & H1 & Hs & ->). eauto.
Qed.

(** ** Case analysis of a step *)

(** Splits a hypothesis [step e σ = Some (σ', effs)] into one goal per
    event and program point, with the equations of the case in context. *)
Ltac recv_inv H :=
  match type of H with
  | context [calls ?σ !! ?sid] =>
      let c := fresh "c" in let Hc := fresh "Hc" in
      destruct (calls σ !! sid) as [c|] eqn:Hc; simpl in H; [|discriminate H]
  end;
  match type of H with
  | context [_consume_requests ?req ?σ] =>
      destruct req as [?code|?id ?resp| |]; simpl in H;
      [ | unfold _handle_prompt_response in H;
          match type of H with
          | context [pending_prompts σ !! ?i] =>
              let ent := fresh "ent" in let Hent := fresh "Hent" in
              destruct (pending_prompts σ !! i) as [ent|] eqn:Hent
          end | | ]
  end.

Ltac sched_inv H :=
  match type of H with
  | context [runs ?σ !! ?t] =>
      let r := fresh "r" in let Hr := fresh "Hr" in
      destruct (runs σ !! t) as [r|] eqn:Hr; simpl in H; [|discriminate H];
      unfold step_run in H;
      let Hpc := fresh "Hpc" in
      destruct (pc r) as [ | | | |[ |?e|?s ?k|?s ?k|?p ?k|?m ?k]
                          |[|?qi ?b ?owner] ?s ?k|?owner ?b ?s ?k
                          |?id ?ev ?p ?k|?id ?ev ?k|?id ?k| | | |?o1|?out|?out ?so
                          |?out ?so ?se| ] eqn:Hpc;
      try discriminate H;
      repeat match type of H with
        | context [OutputStream_write _ _ ?s _] =>
            unfold OutputStream_write in H;
            let Hs := fresh "Hs" in destruct (decide (s = "")) as [Hs|Hs];
            [rewrite (bool_decide_eq_true_2 _ Hs) in H
            |rewrite (bool_decide_eq_false_2 _ Hs) in H]
        | context [bool_decide (events σ !! ?ev = Some true)] =>
            let Hev := fresh "Hev" in
            destruct (decide (events σ !! ev = Some true)) as [Hev|Hev];
            [rewrite (bool_decide_eq_true_2 _ Hev) in H
            |rewrite (bool_decide_eq_false_2 _ Hev) in H; discriminate H]
        | context [pending_prompts σ !! ?i] =>
            let data := fresh "data" in let Hdata := fresh "Hdata" in
            destruct (pending_prompts σ !! i) as [data|] eqn:Hdata
        end
  end.

Ltac drain_inv H :=
  unfold RunStream_loop in H;
  match type of H with
  | context [calls ?σ !! ?sid] =>
      let c := fresh "c" in let Hc := fresh "Hc" in
      destruct (calls σ !! sid) as [c|] eqn:Hc; simpl in H; [|discriminate H];
      let Hl := fresh "Hl" in
      destruct (looping c) eqn:Hl; [|discriminate H];
      let Hq := fresh "Hq" in
      destruct (queues σ !! q c) as [[|?m ?rest]|] eqn:Hq;
      try (let Ha := fresh "Ha" in destruct (is_active c) eqn:Ha)
  end.

Ltac disconnect_inv H :=
  match type of H with
  | context [calls ?σ !! ?sid] =>
      let c := fresh "c" in let Hc := fresh "Hc" in
      destruct (calls σ !! sid) as [c|] eqn:Hc; simpl in H; [|discriminate H]
  end.

Ltac step_inv H :=
  match type of H with
  | step ?e ?σ = Some _ =>
      destruct e as [|?sid ?req|?t|?sid|?sid]; simpl in H;
      [ | recv_inv H | sched_inv H | drain_inv H | disconnect_inv H ]
  end.

Lemma puts_on_tag e effs qi :
  puts_on qi ((λ x, (e, x)) <$> effs) = puts_in qi effs.
Proof.
  induction effs as [|x effs IH]; [done|].
  unfold puts_on, puts_in in *. cbn. by rewrite IH.
Qed.

(** ** Reading a run after an update *)

Lemma lookup_on_run t f σ u :
  runs (on_run t f σ) !! u = if decide (t = u) then f <$> runs σ !! u else runs σ !! u.
Proof.
  unfold on_run; simpl. case_decide as E.
  - subst. apply list_lookup_alter_eq.
  - by apply list_lookup_alter_ne.
Qed.

(** ** [OutputStream.write] *)

(** C10.  A write of [s] on the output stream of a run returns [len(s)],
    and it enqueues an [Output] message (one, carrying [s] and the stream's
    tag, at the tail of its queue) exactly when [s] is not empty; a write
    of the empty string changes nothing and returns 0. *)
Theorem OutputStream_write_enqueues_iff_nonempty
    (qi : nat) (b : bool) (s : string) (σ : State) (l : list ServerMessage) :
  queues σ !! qi = Some l →
  let '(σ', effs, n) := OutputStream_write qi b s σ in
  n = String.length s ∧
  (queues σ' !! qi = Some (l ++ [Output s b]) ∧ effs = [EPut qi (Output s b)] ↔ s ≠ "") ∧
  (σ' = σ ∧ effs = [] ∧ n = 0 ↔ s = "").
Proof.
  intros Hq. unfold OutputStream_write. case_bool_decide as Hs.
  - subst s. split; [done|]. split; [|done].
    split; [|done]. intros [_ [=]].
  - split; [done|]. split.
    + split; [done|]. intros _. split; [|done].
      unfold put; simpl. by rewrite list_lookup_alter_eq, Hq.
    + split; [|done]. intros (_ & [=] & _).
Qed.

(** ** Answers ([_handle_prompt_response]) *)

(** C3.  An answer whose id is not in [pending_prompts] is dropped: the
    handler returns the state it was given (table, entries, queues and
    everything else) and has no effect, and the consumer's step for that
    request is defined and is the identity. *)
Theorem answer_for_unknown_id_is_dropped (sid : nat) (id resp : string) (σ : State) :
  pending_prompts σ !! id = None →
  is_Some (calls σ !! sid) →
  _handle_prompt_response id resp σ = (σ, []) ∧
  step (Recv sid (PromptModelResponse id resp)) σ = Some (σ, []).
Proof.
  intros Hid [c Hc].
  assert (_handle_prompt_response id resp σ = (σ, [])) as Hh.
  { unfold _handle_prompt_response. by rewrite Hid. }
  split; [done|]. simpl. rewrite Hc. simpl. by rewrite Hh.
Qed.

Lemma handle_prompt_response_known id resp σ ent :
  pending_prompts σ !! id = Some ent →
  _handle_prompt_response id resp σ =
  (set_events (<[event ent := true]> (events σ))
     (set_pending_prompts
        (<[id := {| event := event ent; response := Some resp |}]> (pending_prompts σ)) σ),
   [EResolve id resp]).
Proof. intros H. unfold _handle_prompt_response. by rewrite H. Qed.

(** C2, as the code has it.  While the entry of [id] is in the table every
    answer for [id] is stored: a later answer overwrites an earlier one (the
    state is the one that the later answer alone would have produced, with
    the same event set), the [pop] of the waiter returns the last answer
    stored, and only after that [pop] are further answers for [id] without
    effect. *)
Theorem later_answer_overwrites_earlier
    (id a b : string) (ent : Pending) (σ : State) (t : nat) (r : Run) (k : Outcome → Cell) :
  pending_prompts σ !! id = Some ent →
  runs σ !! t = Some r →
  pc r = PcPromptPop id k →
  let σ1 := (_handle_prompt_response id a σ).1 in
  let σ2 := (_handle_prompt_response id b σ1).1 in
  σ2 = (_handle_prompt_response id b σ).1 ∧
  pending_prompts σ1 !! id = Some {| event := event ent; response := Some a |} ∧
  pending_prompts σ2 !! id = Some {| event := event ent; response := Some b |} ∧
  ∃ σ3, step (Sched t) σ2 = Some (σ3, [EReturn id (Returns (Some b))]) ∧
        pc <$> runs σ3 !! t = Some (PcRunCell (k (Returns (Some b)))) ∧
        pending_prompts σ3 !! id = None ∧
        ∀ c, _handle_prompt_response id c σ3 = (σ3, []).
Proof.
  intros Hid Ht Hpc σ1 σ2.
  assert (pending_prompts σ1 !! id = Some {| event := event ent; response := Some a |}) as H1.
  { subst σ1. rewrite (handle_prompt_response_known _ _ _ _ Hid); simpl.
    apply lookup_insert_eq. }
  assert (σ2 = (_handle_prompt_response id b σ).1) as H2.
  { subst σ2. rewrite (handle_prompt_response_known _ _ _ _ H1).
    subst σ1. rewrite !(handle_prompt_response_known _ _ _ _ Hid); simpl.
    unfold set_events, set_pending_prompts; simpl.
    by rewrite insert_insert_eq, list_insert_insert_eq. }
  assert (pending_prompts σ2 !! id = Some {| event := event ent; response := Some b |}) as H3.
  { rewrite H2, (handle_prompt_response_known _ _ _ _ Hid); simpl. apply lookup_insert_eq. }
  split; [done|]. split; [done|]. split; [done|].
  assert (runs σ2 = runs σ) as Hruns.
  { rewrite H2, (handle_prompt_response_known _ _ _ _ Hid). done. }
  set (σ3 := on_run t (with_pc (PcRunCell (k (Returns (Some b)))))
               (set_pending_prompts (delete id (pending_prompts σ2)) σ2)).
  assert (pending_prompts σ3 !! id = None) as H4 by apply lookup_delete_eq.
  exists σ3. split.
  { simpl. rewrite Hruns, Ht. simpl. unfold step_run. by rewrite Hpc, H3. }
  split.
  { unfold σ3. rewrite lookup_on_run, decide_True by done. simpl. by rewrite Hruns, Ht. }
  split; [done|]. intros c. unfold _handle_prompt_response. by rewrite H4.
Qed.

(** ** Queues *)


(** What a step does to the queues: either it takes the head of the queue
    of one looping call and yields it, or it only appends what it puts, at
    the tail. *)
Lemma step_queues e σ σ' effs :
  step e σ = Some (σ', effs) →
  ((∀ qi l, queues σ !! qi = Some l → queues σ' !! qi = Some (l ++ puts_in qi effs)) ∧
   (∀ m, EYield m ∉ effs))
  ∨ (∃ sid c m rest, e = Drain sid ∧ calls σ !! sid = Some c ∧
       queues σ !! q c = Some (m :: rest) ∧
       queues σ' = <[q c := rest]> (queues σ) ∧ effs = [EYield m]).
Proof.
  intros Hs. step_inv Hs; simplify_eq; simpl.
  all: try (right; by eauto 10).
  all: left; (split; [|intros ?; repeat (apply not_elem_of_cons; split; [discriminate|]);
                          apply not_elem_of_nil]).
  all: intros qj lj Hqj; unfold puts_in; simpl; rewrite ?app_nil_r; try done.
  all: try by apply lookup_app_l_Some.
  all: case_decide; subst;
    [rewrite list_lookup_alter_eq, Hqj|rewrite list_lookup_alter_ne, app_nil_r by done]; done.
Qed.



(** ** Strings *)

Lemma append_nil_r (s : string) : s +:+ "" = s.
Proof.
  induction s as [|a s IH]; [done|].
  change (String a s +:+ "") with (String a (s +:+ "")). by rewrite IH.
Qed.

Lemma append_assoc (s1 s2 s3 : string) : (s1 +:+ s2) +:+ s3 = s1 +:+ (s2 +:+ s3).
Proof.
  induction s1 as [|a s1 IH]; [done|].
  change (String a ((s1 +:+ s2) +:+ s3) = String a (s1 +:+ (s2 +:+ s3))). by rewrite IH.
Qed.

Lemma contains_append e s x : contains e s → contains e (s +:+ x).
Proof.
  intros (pre & post & ->). exists pre, (post +:+ x). by rewrite !append_assoc.
Qed.

Lemma contains_suffix e s : contains e (s +:+ e).
Proof. exists s, "". by rewrite append_nil_r. Qed.

(** ** What other threads can do to a run *)

Lemma grown_refl r : grown r r.
Proof. unfold grown. split_and!; try done; exists ""; by rewrite append_nil_r. Qed.

Lemma grown_capture b s r : grown r (capture b s r).
Proof.
  unfold grown. split_and!; try done; simpl; destruct b; eauto; exists ""; by rewrite append_nil_r.
Qed.

(** A step of anything but thread [t] leaves run [t] as it is, up to
    growth of its buffers. *)
Lemma step_other_run e σ σ' effs t r :
  step e σ = Some (σ', effs) → e ≠ Sched t → runs σ !! t = Some r →
  ∃ r', runs σ' !! t = Some r' ∧ grown r r'.
Proof.
  intros Hs Hne Ht. step_inv Hs; simplify_eq; simpl.
  all: try (exists r; split; [done|apply grown_refl]).
  all: try (exists r; split; [by apply lookup_app_l_Some|apply grown_refl]).
  all: assert (t0 ≠ t) as Hne' by congruence.
  all: rewrite list_lookup_alter_ne by done.
  all: try (exists r; split; [done|apply grown_refl]).
  rewrite list_lookup_alter. case_decide; subst; rewrite Ht; simpl;
    eexists; (split; [done|]); auto using grown_refl, grown_capture.
Qed.

(** ** Engine failure ([except Exception as e]) *)

Lemma puts_by_tag t e effs :
  puts_by t ((λ x, (e, x)) <$> effs) = if decide (e = Sched t) then puts_of effs else [].
Proof.
  unfold puts_by, puts_of. induction effs as [|x effs IH]; cbn.
  { by case_decide. }
  rewrite IH. destruct e as [| | u | |]; try (rewrite decide_False by done; by destruct x).
  destruct (decide (u = t)) as [->|Hne].
  - rewrite !decide_True by done. by destruct x.
  - rewrite !decide_False by congruence. by destruct x.
Qed.

Lemma steps_of_snoc t tr e :
  steps_of t (tr ++ [e]) = if decide (e = Sched t) then S (steps_of t tr) else steps_of t tr.
Proof.
  unfold steps_of. rewrite filter_app, length_app, filter_cons, filter_nil.
  case_decide; simpl; lia.
Qed.

Lemma contains_prefixed e o s : contains e s → contains e (o +:+ s).
Proof.
  intros (pre & post & ->). exists (o +:+ pre), post. by rewrite append_assoc.
Qed.

Lemma raise_phase_grown e t qe r r' ps n :
  grown r r' → raise_phase e t qe r ps n → raise_phase e t qe r' ps n.
Proof.
  intros (Hpc & _ & _ & Hq & _ & _ & _ & y & Hy) [Hqe Hph].
  split; [congruence|]. rewrite Hpc. rewrite Hy.
  destruct (pc r) as [ | | | |[]|[|? [] ?] ? []|? [] ? []| | | | | | | | | | | ]; try done.
  all: repeat match goal with H : _ ∧ _ |- _ => destruct H end.
  all: split_and!; eauto using contains_append.
Qed.

Lemma raise_phase_step e t qe σ σ' effs r ps n :
  runs σ !! t = Some r → raise_phase e t qe r ps n →
  step (Sched t) σ = Some (σ', effs) →
  ∃ r', runs σ' !! t = Some r' ∧ raise_phase e t qe r' (ps ++ puts_of effs) (S n).
Proof.
  intros Ht [Hqe Hph] Hs. simpl in Hs. sched_inv Hs; simplify_eq.
  all: match goal with Hp : pc _ = _ |- _ => rewrite Hp in Hph end; simpl in Hph; try done.
  all: repeat match goal with
              | b : bool |- _ => destruct b; try done
              | k : Kont |- _ => destruct k; try done
              end.
  all: repeat match goal with H : _ ∧ _ |- _ => destruct H end; subst.
  all: simpl; rewrite ?list_lookup_alter_eq, ?Hr; simpl.
  all: rewrite ?app_nil_r.
  all: try (eexists; split; [done|]; split; [done|]; simpl; unfold fragment;
            rewrite ?decide_True, ?decide_False by done;
            split_and?; eauto 10 using contains_prefixed, contains_suffix).
Qed.

Lemma raise_phase_progress e t qe σ r ps n :
  runs σ !! t = Some r → raise_phase e t qe r ps n → pc r ≠ PcDone →
  is_Some (step (Sched t) σ).
Proof.
  intros Ht [_ Hph] Hnd. simpl. rewrite Ht. simpl. unfold step_run.
  revert Hph Hnd.
  destruct (pc r) as [ | | | |[]|[|? [] ?] ? []|? [] ? []| | | | | | | | | | | ]; try done.
  all: intros _ _; unfold OutputStream_write; try case_bool_decide; by eexists.
Qed.

(** Induction on schedules from the end, with the schedule in the property. *)
Lemma exec_ind_tr (P : list Event → State → list (Event * Effect) → Prop) σ0 :
  P [] σ0 [] →
  (∀ tr σ log e σ' effs, P tr σ log → step e σ = Some (σ', effs) →
                         P (tr ++ [e]) σ' (log ++ ((λ x, (e, x)) <$> effs))) →
  ∀ tr σ log, exec tr σ0 = Some (σ, log) → P tr σ log.
Proof.
  intros H0 Hstep tr. induction tr as [|e tr IH] using rev_ind; intros σ log.
  - simpl. by intros [= <- <-].
  - rewrite exec_snoc. intros (σ1 & l1 & effs & H1 & Hs & ->). eauto.
Qed.

Lemma raise_phase_reachable e t σ0 r0 tr σ log :
  runs σ0 !! t = Some r0 → pc r0 = PcRunCell (Raise e) →
  exec tr σ0 = Some (σ, log) →
  ∃ r, runs σ !! t = Some r ∧
       raise_phase e t (stderr_q r0) r (puts_by t log) (steps_of t tr).
Proof.
  intros Ht0 Hpc0. revert tr σ log. apply exec_ind_tr.
  { exists r0. split; [done|]. split; [done|]. by rewrite Hpc0. }
  intros tr σ log e0 σ' effs (r & Ht & Hph) Hs.
  unfold puts_by in *. rewrite omap_app. fold (puts_by t log) in *.
  fold (puts_by t ((λ x, (e0, x)) <$> effs)).
  rewrite puts_by_tag, steps_of_snoc.
  destruct (decide (e0 = Sched t)) as [->|Hne].
  - eapply raise_phase_step; eauto.
  - destruct (step_other_run _ _ _ _ _ _ Hs Hne Ht) as (r' & Ht' & Hg).
    exists r'. split; [done|]. rewrite app_nil_r. by eapply raise_phase_grown.
Qed.

Lemma fragment_no_result qi s b :
  Forall (λ x : nat * ServerMessage, is_result x.2 = false) (fragment qi s b).
Proof. unfold fragment. case_decide; repeat constructor. Qed.

Lemma raise_phase_facts e t qe r ps n :
  raise_phase e t qe r ps n →
  n ≤ 10 ∧
  (n < 10 → pc r ≠ PcDone) ∧
  (3 ≤ n → contains e (captured_stderr r)) ∧
  (n < 10 → Forall (λ x, is_result x.2 = false) ps) ∧
  (n = 10 →
   pc r = PcDone ∧
   ∃ qi out so se,
     ps = fragment qe e true ++ [(qi, RunCellResult out so se true)] ∧
     contains e se ∧ contains e out).
Proof.
  intros [_ Hph]. revert Hph.
  destruct (pc r) as [ | | | |[]|[|? [] ?] ? []|? [] ? []| | | | | | | | | | | ]; try done.
  all: intros Hph.
  all: repeat match goal with
              | H : _ ∧ _ |- _ => destruct H
              | H : ∃ _, _ |- _ => destruct H
              end; subst.
  all: split_and!; try lia; try done; try (intros; lia).
  all: try (intros; by apply fragment_no_result).
  all: try (intros; by constructor).
  all: intros; split; [done|]; eauto 10.
Qed.

(** C6.  When [run_cell] itself raises [e], the run needs ten steps of its
    own, none of which can block, whatever the other threads do meanwhile.
    From the third on its [captured_stderr] contains [str(e)]; until the
    tenth it has put no result; and with the tenth it is done and has put,
    after the [Output] fragment for [str(e)] on its stderr queue (none when
    [str(e)] is empty), exactly one [RunCellResult], whose [stderr] (and
    [output]) contain [str(e)] and whose [success] is [True]. *)
Theorem engine_failure_reaches_stderr_and_result
    (σ0 : State) (t : nat) (r0 : Run) (e : string)
    (tr : list Event) (σ : State) (log : list (Event * Effect)) :
  runs σ0 !! t = Some r0 →
  pc r0 = PcRunCell (Raise e) →
  exec tr σ0 = Some (σ, log) →
  ∃ r, runs σ !! t = Some r ∧
       steps_of t tr ≤ 10 ∧
       (steps_of t tr < 10 → is_Some (step (Sched t) σ)) ∧
       (3 ≤ steps_of t tr → contains e (captured_stderr r)) ∧
       (steps_of t tr < 10 → Forall (λ x, is_result x.2 = false) (puts_by t log)) ∧
       (steps_of t tr = 10 →
        pc r = PcDone ∧
        ∃ qi out so se,
          puts_by t log =
            fragment (stderr_q r0) e true ++ [(qi, RunCellResult out so se true)] ∧
          contains e se ∧ contains e out).
Proof.
  intros Ht0 Hpc0 Hexec.
  destruct (raise_phase_reachable _ _ _ _ _ _ _ Ht0 Hpc0 Hexec) as (r & Ht & Hph).
  exists r. split; [done|].
  destruct (raise_phase_facts _ _ _ _ _ _ Hph) as (H1 & H2 & H3 & H4 & H5).
  split_and!; try done.
  intros Hlt. eapply raise_phase_progress; eauto.
Qed.

(** ** The table of pending prompts *)

Lemma asks_alter (t : nat) (f : Run → Run) (l : list Run) (r : Run) :
  l !! t = Some r →
  (λ r, ask_of (pc r)) <$> alter f t l = <[t := ask_of (pc (f r))]> ((λ r, ask_of (pc r)) <$> l).
Proof.
  intros Hr. apply list_eq. intros i. rewrite list_lookup_fmap, list_lookup_alter.
  case_decide as E.
  - subst. rewrite list_lookup_insert_eq.
    + by rewrite Hr.
    + rewrite length_fmap. by eapply lookup_lt_Some.
  - rewrite list_lookup_insert_ne by done. by rewrite list_lookup_fmap.
Qed.

Lemma asks_alter_same (t : nat) (f : Run → Run) (l : list Run) (r : Run) :
  l !! t = Some r → ask_of (pc (f r)) = ask_of (pc r) →
  (λ r, ask_of (pc r)) <$> alter f t l = (λ r, ask_of (pc r)) <$> l.
Proof.
  intros Hr Heq. erewrite asks_alter by done. rewrite Heq.
  apply list_insert_id. by rewrite list_lookup_fmap, Hr.
Qed.

Lemma asks_capture b s (owner : nat) (l : list Run) :
  (λ r, ask_of (pc r)) <$> alter (capture b s) owner l = (λ r, ask_of (pc r)) <$> l.
Proof.
  apply list_eq. intros i. rewrite !list_lookup_fmap, list_lookup_alter.
  case_decide as E; [|done]. rewrite E. by destruct (l !! i).
Qed.

Lemma asks_alter_pc (t : nat) (f : Run → Run) (l : list Run) :
  (∀ r, l !! t = Some r → ask_of (pc (f r)) = ask_of (pc r)) →
  (λ r, ask_of (pc r)) <$> alter f t l = (λ r, ask_of (pc r)) <$> l.
Proof.
  intros Hf. destruct (l !! t) as [r|] eqn:Hr.
  - apply asks_alter_same with r; auto.
  - apply list_eq. intros i. rewrite !list_lookup_fmap, list_lookup_alter.
    case_decide as E; [|done]. by rewrite Hr, <-E, Hr.
Qed.

Lemma ask_of_resume k : ask_of (resume k) = NoAsk.
Proof. by destruct k. Qed.

Lemma step_ask e σ σ' effs : step e σ = Some (σ', effs) → ask_step σ σ' e effs.
Proof.
  intros Hs. step_inv Hs; simplify_eq.
  all: try (apply ask_idle;
            [ by simpl | by simpl | by simpl | by simpl
            | first [ by left
                    | right; unfold asks; simpl; by rewrite fmap_app
                    | left; unfold asks; simpl; rewrite ?asks_capture;
                      apply asks_alter_pc; intros r' Hr'; simplify_eq; simpl;
                      rewrite ?ask_of_resume;
                      match goal with Hp : pc _ = _ |- _ => by rewrite Hp end ]
            | by repeat constructor ]).
  - by apply ask_open.
  - by eapply ask_resolve.
  - eapply ask_register; try done.
    + unfold asks. by rewrite list_lookup_fmap, Hr; simpl; rewrite Hpc.
    + unfold asks; simpl. by erewrite asks_alter by done.
  - apply ask_idle; try done.
    left. unfold asks; simpl. rewrite asks_alter_pc; [apply asks_capture|].
    intros r' Hr'. rewrite list_lookup_alter in Hr'.
    simpl. rewrite ask_of_resume.
    case_decide as E; [rewrite E in Hr'|]; rewrite Hr in Hr'; simpl in Hr';
      injection Hr' as <-; simpl; by rewrite Hpc.
  - eapply ask_send; try done.
    + unfold asks. by rewrite list_lookup_fmap, Hr; simpl; rewrite Hpc.
    + unfold asks; simpl. by erewrite asks_alter by done.
  - eapply ask_wake; try done.
    + unfold asks. by rewrite list_lookup_fmap, Hr; simpl; rewrite Hpc.
    + unfold asks; simpl. by erewrite asks_alter by done.
  - eapply ask_pop; try done.
    + unfold asks. by rewrite list_lookup_fmap, Hr; simpl; rewrite Hpc.
    + unfold asks; simpl. by erewrite asks_alter by done.
    + by rewrite Hdata.
  - eapply ask_pop; try done.
    + unfold asks. by rewrite list_lookup_fmap, Hr; simpl; rewrite Hpc.
    + simpl. symmetry. by apply delete_id.
    + unfold asks; simpl. by erewrite asks_alter by done.
    + by rewrite Hdata.
Qed.

Lemma ask_inv_init : ask_inv init [].
Proof.
  split; try done.
  intros id [x Hx]. simpl in Hx. by rewrite lookup_empty in Hx.
Qed.

Lemma registered_app l1 l2 : registered (l1 ++ l2) = registered l1 ++ registered l2.
Proof. apply omap_app. Qed.
Lemma returned_app l1 l2 : returned (l1 ++ l2) = returned l1 ++ returned l2.
Proof. apply omap_app. Qed.
Lemma opened_app l1 l2 : opened (l1 ++ l2) = opened l1 ++ opened l2.
Proof. apply omap_app. Qed.
Lemma resolves_app id l1 l2 : resolves id (l1 ++ l2) = resolves id l1 ++ resolves id l2.
Proof. apply omap_app. Qed.

Lemma quiet_views e effs :
  Forall quiet effs →
  registered ((λ x, (e, x)) <$> effs) = [] ∧ returned ((λ x, (e, x)) <$> effs) = [] ∧
  opened ((λ x, (e, x)) <$> effs) = [] ∧ ∀ id, resolves id ((λ x, (e, x)) <$> effs) = [].
Proof.
  induction 1 as [|x effs Hx _ (IH1 & IH2 & IH3 & IH4)]; [done|].
  unfold registered, returned, opened, resolves in *. cbn.
  rewrite IH1, IH2, IH3. split_and!; try intros id; rewrite ?IH4; by destruct x.
Qed.

(** Appending to a log keeps the history of an ask that is under way. *)
Lemma ask_history_frame t a σ σ' log x :
  (∀ id, ask_id a = Some id → pending_prompts σ' !! id = pending_prompts σ !! id) →
  (∀ id ent, ask_id a = Some id → pending_prompts σ !! id = Some ent →
             events σ' !! event ent = events σ !! event ent) →
  (∀ id, ask_id a = Some id → resolves id x = []) →
  ask_history t a σ log → ask_history t a σ' (log ++ x).
Proof.
  intros Hp He Hx. destruct a as [|id ev p|id ev|id]; simpl; [done|..];
    rewrite (Hp id eq_refl).
  - intros (l1 & l2 & -> & H1 & H2). exists l1, (l2 ++ x).
    rewrite resolves_app, (Hx id eq_refl), app_nil_r. split_and!; try done.
    + by simplify_list_eq.
    + pose proof (He id _ eq_refl H1) as He'. simpl in He'. by rewrite He'.
  - intros (l1 & l2 & l3 & p & -> & H1 & H2). exists l1, l2, (l3 ++ x), p.
    rewrite !resolves_app, (Hx id eq_refl), app_nil_r, <-resolves_app. split_and!; try done.
    + by simplify_list_eq.
    + pose proof (He id _ eq_refl H1) as He'. simpl in He'. by rewrite He'.
  - intros (l1 & l2 & l3 & p & ev & -> & H1 & H2). exists l1, l2, (l3 ++ x), p, ev.
    rewrite !resolves_app, (Hx id eq_refl), app_nil_r, <-resolves_app. split_and!; try done.
    by simplify_list_eq.
Qed.

Lemma lookup_insert_cases {A} (l : list A) (t t' : nat) (a0 a' a : A) :
  l !! t = Some a0 → <[t := a']> l !! t' = Some a →
  (t' = t ∧ a = a') ∨ (t' ≠ t ∧ l !! t' = Some a).
Proof.
  intros H0 H. destruct (decide (t' = t)) as [->|Hne].
  - left. rewrite list_lookup_insert_eq in H by (by eapply lookup_lt_Some).
    split; congruence.
  - right. by rewrite list_lookup_insert_ne in H.
Qed.

Lemma fresh_uuid `{!Inj (=) (=) uuid4} (n : nat) : uuid4 n ∉ uuid4 <$> seq 0 n.
Proof.
  intros Hin. apply list_elem_of_fmap in Hin as (m & Heq & Hm).
  apply (inj uuid4) in Heq. subst. apply elem_of_seq in Hm. lia.
Qed.

Lemma ask_inv_idle σ log e σ' effs :
  ask_inv σ log →
  pending_prompts σ' = pending_prompts σ → events σ' = events σ →
  uuid_calls σ' = uuid_calls σ →
  (∀ t a, asks σ' !! t = Some a → a = NoAsk ∨ asks σ !! t = Some a) →
  (∀ t a, asks σ !! t = Some a → asks σ' !! t = Some a) →
  response_queue σ' = current_queue (log ++ ((λ x, (e, x)) <$> effs)) →
  registered ((λ x, (e, x)) <$> effs) = [] → returned ((λ x, (e, x)) <$> effs) = [] →
  (∀ id, resolves id ((λ x, (e, x)) <$> effs) = []) →
  ask_inv σ' (log ++ ((λ x, (e, x)) <$> effs)).
Proof.
  intros [Hq Hreg Hret Hown Hfl Huni Hlt Hei Hhist] Hp He Hu Ha Ha' Hq' V1 V2 V4.
  split; rewrite ?registered_app, ?returned_app, ?V1, ?V2, ?app_nil_r, ?Hp, ?He, ?Hu;
    try done.
  - intros id Hid. destruct (Hown id Hid) as (t & a & Ht & Hida). eauto.
  - intros t a id Ht Hid. destruct (Ha t a Ht) as [->|Ht']; [done|]. eauto.
  - intros t1 t2 a1 a2 id H1 H2 Hi1 Hi2.
    destruct (Ha t1 a1 H1) as [->|H1']; [done|].
    destruct (Ha t2 a2 H2) as [->|H2']; [done|]. eauto.
  - intros t a Ht. destruct (Ha t a Ht) as [->|Ht']; [done|].
    apply (ask_history_frame t a σ); auto; intros; congruence.
Qed.

(** A run moves on inside its ask: same id, same table. *)
Lemma ask_inv_move σ log e σ' effs t a0 a' :
  ask_inv σ log →
  asks σ !! t = Some a0 → asks σ' = <[t := a']> (asks σ) → ask_id a' = ask_id a0 →
  pending_prompts σ' = pending_prompts σ → events σ' = events σ →
  uuid_calls σ' = uuid_calls σ →
  response_queue σ' = current_queue (log ++ ((λ x, (e, x)) <$> effs)) →
  registered ((λ x, (e, x)) <$> effs) = [] → returned ((λ x, (e, x)) <$> effs) = [] →
  (∀ id, resolves id ((λ x, (e, x)) <$> effs) = []) →
  ask_history t a' σ' (log ++ ((λ x, (e, x)) <$> effs)) →
  ask_inv σ' (log ++ ((λ x, (e, x)) <$> effs)).
Proof.
  intros [Hq Hreg Hret Hown Hfl Huni Hlt Hei Hhist] Ht Ha Hid Hp He Hu Hq' V1 V2 V4 Hh.
  assert (∀ u a id, asks σ' !! u = Some a → ask_id a = Some id →
                    ∃ b, asks σ !! u = Some b ∧ ask_id b = Some id) as Hback.
  { intros u a id Hu' Hi. rewrite Ha in Hu'.
    destruct (lookup_insert_cases _ _ _ _ _ _ Ht Hu') as [[-> ->]|[Hne Hu'']].
    - exists a0. split; [done|congruence].
    - eauto. }
  split; rewrite ?registered_app, ?returned_app, ?V1, ?V2, ?app_nil_r, ?Hp, ?He, ?Hu;
    try done.
  - intros id Hi. destruct (Hown id Hi) as (u & a & Hu' & Hida).
    destruct (decide (u = t)) as [->|Hne].
    + exists t, a'. rewrite Ha, list_lookup_insert_eq by (by eapply lookup_lt_Some).
      split; [done|]. congruence.
    + exists u, a. by rewrite Ha, list_lookup_insert_ne.
  - intros u a id Hu' Hi. destruct (Hback u a id Hu' Hi) as (b & Hb & Hib). eauto.
  - intros t1 t2 a1 a2 id H1 H2 Hi1 Hi2.
    destruct (Hback _ _ _ H1 Hi1) as (b1 & Hb1 & Hib1).
    destruct (Hback _ _ _ H2 Hi2) as (b2 & Hb2 & Hib2). eauto.
  - intros u a Hu'. rewrite Ha in Hu'.
    destruct (lookup_insert_cases _ _ _ _ _ _ Ht Hu') as [[-> ->]|[Hne Hu'']]; [done|].
    apply (ask_history_frame u a σ); auto; intros; congruence.
Qed.

(** Every step keeps the invariant, as long as [uuid4] does not repeat itself. *)
Lemma ask_inv_step `{!Inj (=) (=) uuid4} σ log e σ' effs :
  ask_inv σ log → step e σ = Some (σ', effs) →
  ask_inv σ' (log ++ ((λ x, (e, x)) <$> effs)).
Proof.
  intros Hinv Hstep. apply step_ask in Hstep.
  destruct Hstep as [Hp He Hu Hrq Ha Hquiet
                    |Hp He Hu Ha ->
                    |t id ev p -> Ht -> -> Hp He Hu Hrq Ha ->
                    |t id ev p -> Ht Hp He Hu Hrq Ha ->
                    |t id ev -> Ht Hset Hp He Hu Hrq Ha ->
                    |t id -> Ht Hp He Hu Hrq Ha ->
                    |sid id v ent -> Hent Hp He Hu Hrq Ha ->].
  - (* nothing that concerns the table *)
    destruct (quiet_views e effs Hquiet) as (V1 & V2 & V3 & V4).
    apply (ask_inv_idle σ); auto.
    + intros t a Ht. destruct Ha as [Ha|Ha]; rewrite Ha in Ht; [by right|].
      apply lookup_app_Some in Ht as [Ht|[_ Ht]]; [by right|left].
      apply list_lookup_singleton_Some in Ht as [_ Ht]. done.
    + intros t a Ht. destruct Ha as [Ha|Ha]; rewrite Ha; [done|].
      by apply lookup_app_l_Some.
    + unfold current_queue. rewrite opened_app, V3, app_nil_r, Hrq.
      apply (inv_queue _ _ Hinv).
  - (* a new call *)
    apply (ask_inv_idle σ); auto; try (rewrite Ha; by auto).
    unfold current_queue. rewrite opened_app. cbn. by rewrite last_snoc.
  - (* registration *)
    destruct Hinv as [Hq Hreg Hret Hown Hfl Huni Hlt Hei Hhist].
    set (id := uuid4 (uuid_calls σ)) in *. set (ev := length (events σ)) in *.
    assert (id ∉ registered log) as Hfresh by (rewrite Hreg; apply fresh_uuid).
    assert (∀ u a, asks σ !! u = Some a → ask_id a ≠ Some id) as Hnot.
    { intros u a Hu' Hi. by destruct (Hfl u a id Hu' Hi). }
    split.
    + unfold current_queue. rewrite opened_app. cbn. by rewrite app_nil_r, Hrq.
    + rewrite registered_app. cbn. by rewrite Hreg, Hu, seq_S, fmap_app.
    + rewrite returned_app, registered_app. cbn. rewrite app_nil_r.
      intros id' Hin. destruct (Hret id' Hin) as [H1 H2].
      split; [apply elem_of_app; by left|].
      rewrite Hp, lookup_insert_ne; [done|]. by intros <-.
    + intros id' Hs. rewrite Hp in Hs. destruct (decide (id' = id)) as [->|Hne].
      * exists t, (AskPut id ev p).
        by rewrite Ha, list_lookup_insert_eq by (by eapply lookup_lt_Some).
      * rewrite lookup_insert_ne in Hs by done.
        destruct (Hown id' Hs) as (u & a & Hu' & Hia). exists u, a. split; [|done].
        rewrite Ha, list_lookup_insert_ne; [done|]. intros ->.
        rewrite Ht in Hu'. by simplify_eq.
    + intros u a id' Hu' Hi. rewrite Ha in Hu'. rewrite registered_app, Hp.
      destruct (lookup_insert_cases _ _ _ _ _ _ Ht Hu') as [[-> ->]|[Hne Hu'']].
      * simpl in Hi. injection Hi as <-. split.
        -- apply elem_of_app. right. cbn. by apply list_elem_of_singleton.
        -- rewrite lookup_insert_eq. by eexists.
      * destruct (Hfl u a id' Hu'' Hi) as [H1 H2]. split; [apply elem_of_app; by left|].
        rewrite lookup_insert_ne; [done|]. intros <-. by apply (Hnot u a).
    + intros t1 t2 a1 a2 id' H1 H2 Hi1 Hi2. rewrite Ha in H1, H2.
      destruct (lookup_insert_cases _ _ _ _ _ _ Ht H1) as [[-> ->]|[Hne1 H1']];
        destruct (lookup_insert_cases _ _ _ _ _ _ Ht H2) as [[-> ->]|[Hne2 H2']];
        try done.
      * simpl in Hi1. injection Hi1 as <-. by destruct (Hnot t2 a2).
      * simpl in Hi2. injection Hi2 as <-. by destruct (Hnot t1 a1).
      * eauto.
    + intros id' ent'. rewrite Hp, He, length_app. intros Hl.
      apply lookup_insert_Some in Hl as [[<- <-]|[Hne Hl]]; simpl; [lia|].
      apply Hlt in Hl. lia.
    + intros id1 id2 ent1 ent2. rewrite Hp. intros H1 H2 Heq.
      apply lookup_insert_Some in H1 as [[<- <-]|[Hne1 H1]];
        apply lookup_insert_Some in H2 as [[<- <-]|[Hne2 H2]]; try done.
      * apply Hlt in H2. simpl in Heq. lia.
      * apply Hlt in H1. simpl in Heq. lia.
      * eauto.
    + intros u a Hu'. rewrite Ha in Hu'.
      destruct (lookup_insert_cases _ _ _ _ _ _ Ht Hu') as [[-> ->]|[Hne Hu'']].
      * simpl. exists log, []. split; [done|]. split.
        -- by rewrite Hp, lookup_insert_eq.
        -- rewrite He, lookup_app_r, Nat.sub_diag by done. cbn.
           split; [done|]. by intros [x Hx].
      * apply (ask_history_frame u a σ); [..|by apply Hhist].
        -- intros id' Hi. rewrite Hp. apply lookup_insert_ne. intros <-.
           by apply (Hnot u a).
        -- intros id' ent' Hi Hl. rewrite He. apply lookup_app_l. by eapply Hlt.
        -- done.
  - (* the request is put *)
    pose proof (inv_history _ _ Hinv t _ Ht) as (l1 & l2 & Hlog & H1 & H2).
    apply (ask_inv_move σ log _ σ' _ t (AskPut id ev p) (AskWait id ev)); auto.
    + unfold current_queue. rewrite opened_app. cbn. rewrite app_nil_r, Hrq.
      apply (inv_queue _ _ Hinv).
    + simpl. exists l1, l2, [], p. rewrite app_nil_r, Hp, He. split_and!; try done.
      rewrite (inv_queue _ _ Hinv), Hlog. by simplify_list_eq.
  - (* the event is set: the wait is over *)
    pose proof (inv_history _ _ Hinv t _ Ht) as (l1 & l2 & l3 & p & Hlog & H1 & H2).
    apply (ask_inv_move σ log _ σ' _ t (AskWait id ev) (AskPop id)); auto.
    + simpl. rewrite app_nil_r, Hrq. apply (inv_queue _ _ Hinv).
    + simpl. exists l1, l2, l3, p, ev. rewrite app_nil_r, Hp.
      split_and!; [done|done|by apply H2].
  - (* the entry is popped *)
    destruct Hinv as [Hq Hreg Hret Hown Hfl Huni Hlt Hei Hhist].
    destruct (Hfl t _ id Ht eq_refl) as [Hidreg Hidpend].
    assert (∀ u a, u ≠ t → asks σ !! u = Some a → ask_id a ≠ Some id) as Hnot.
    { intros u a Hne Hu' Hi. apply Hne. by apply (Huni u t a (AskPop id) id). }
    split.
    + unfold current_queue. rewrite opened_app. cbn. by rewrite app_nil_r, Hrq.
    + rewrite registered_app. cbn. by rewrite app_nil_r, Hu.
    + rewrite returned_app, registered_app. cbn. rewrite app_nil_r, Hp.
      intros id' Hin. apply elem_of_app in Hin as [Hin|Hin].
      * destruct (Hret id' Hin) as [H1 H2]. split; [done|].
        apply lookup_delete_None. by right.
      * apply list_elem_of_singleton in Hin as ->. split; [done|]. apply lookup_delete_eq.
    + intros id' Hs. rewrite Hp in Hs. apply lookup_delete_is_Some in Hs as [Hne Hs].
      destruct (Hown id' Hs) as (u & a & Hu' & Hia). exists u, a. split; [|done].
      rewrite Ha, list_lookup_insert_ne; [done|]. intros ->.
      rewrite Ht in Hu'. injection Hu' as <-. simpl in Hia. congruence.
    + intros u a id' Hu' Hi. rewrite Ha in Hu'. rewrite registered_app, Hp.
      destruct (lookup_insert_cases _ _ _ _ _ _ Ht Hu') as [[-> ->]|[Hne Hu'']]; [done|].
      destruct (Hfl u a id' Hu'' Hi) as [H1 H2]. split; [apply elem_of_app; by left|].
      rewrite lookup_delete_ne; [done|]. intros <-. by apply (Hnot u a).
    + intros t1 t2 a1 a2 id' H1 H2 Hi1 Hi2. rewrite Ha in H1, H2.
      destruct (lookup_insert_cases _ _ _ _ _ _ Ht H1) as [[-> ->]|[Hne1 H1']];
        destruct (lookup_insert_cases _ _ _ _ _ _ Ht H2) as [[-> ->]|[Hne2 H2']];
        try done.
      eauto.
    + intros id' ent'. rewrite Hp, He. intros Hl.
      apply lookup_delete_Some in Hl as [_ Hl]. eauto.
    + intros id1 id2 ent1 ent2. rewrite Hp. intros H1 H2.
      apply lookup_delete_Some in H1 as [_ H1]. apply lookup_delete_Some in H2 as [_ H2].
      eauto.
    + intros u a Hu'. rewrite Ha in Hu'.
      destruct (lookup_insert_cases _ _ _ _ _ _ Ht Hu') as [[-> ->]|[Hne Hu'']]; [done|].
      apply (ask_history_frame u a σ); [..|by apply Hhist].
      * intros id' Hi. rewrite Hp. apply lookup_delete_ne. intros <-. by apply (Hnot u a).
      * intros id' ent' Hi Hl. by rewrite He.
      * done.
  - (* an answer is stored *)
    destruct Hinv as [Hq Hreg Hret Hown Hfl Huni Hlt Hei Hhist].
    split.
    + unfold current_queue. rewrite opened_app. cbn. by rewrite app_nil_r, Hrq.
    + rewrite registered_app. cbn. by rewrite app_nil_r, Hu.
    + rewrite returned_app, registered_app. cbn. rewrite !app_nil_r, Hp.
      intros id' Hin. destruct (Hret id' Hin) as [H1 H2]. split; [done|].
      rewrite lookup_insert_ne; [done|]. intros <-. by rewrite Hent in H2.
    + rewrite Ha, Hp. intros id' Hs. apply Hown.
      destruct (decide (id' = id)) as [->|Hne]; [by eexists|].
      by rewrite lookup_insert_ne in Hs.
    + rewrite Ha. intros u a id' Hu' Hi. destruct (Hfl u a id' Hu' Hi) as [H1 H2].
      rewrite registered_app, Hp. split; [apply elem_of_app; by left|].
      destruct (decide (id' = id)) as [->|Hne];
        [rewrite lookup_insert_eq; by eexists|by rewrite lookup_insert_ne].
    + by rewrite Ha.
    + rewrite Hp, He. intros id' ent' Hl. rewrite length_insert.
      apply lookup_insert_Some in Hl as [[<- <-]|[Hne Hl]]; simpl; eauto.
    + intros id1 id2 ent1 ent2. rewrite Hp. intros H1 H2 Heq.
      apply lookup_insert_Some in H1 as [[<- <-]|[Hne1 H1]];
        apply lookup_insert_Some in H2 as [[<- <-]|[Hne2 H2]]; try done; simpl in Heq.
      * by apply (Hei id id2 ent ent2).
      * by apply (Hei id1 id ent1 ent).
      * eauto.
    + rewrite Ha. intros u a Hu'. pose proof (Hhist u a Hu') as Hh.
      destruct (decide (ask_id a = Some id)) as [Hi|Hni].
      * destruct a as [|id' ev p|id' ev|id']; simpl in Hi; [done|..];
          injection Hi as ->; simpl in *.
        -- destruct Hh as (l1 & l2 & -> & H1 & H2).
           exists l1, (l2 ++ [(Recv sid (PromptModelResponse id v), EResolve id v)]).
           rewrite resolves_app. cbn. rewrite decide_True by done. cbn.
           rewrite last_snoc, Hp, lookup_insert_eq.
           assert (event ent = ev) as Hev by (rewrite Hent in H1; by injection H1 as ->).
           rewrite Hev. split_and!; [by simplify_list_eq|done|].
           rewrite He, Hev, list_lookup_insert_eq; [done|]. rewrite <-Hev. by eapply Hlt.
        -- destruct Hh as (l1 & l2 & l3 & p & -> & H1 & H2).
           exists l1, l2, (l3 ++ [(Recv sid (PromptModelResponse id v), EResolve id v)]), p.
           rewrite !resolves_app. cbn. rewrite decide_True by done. cbn.
           rewrite app_assoc, last_snoc, Hp, lookup_insert_eq.
           assert (event ent = ev) as Hev by (rewrite Hent in H1; by injection H1 as ->).
           rewrite Hev. split_and!; [by simplify_list_eq|done|].
           rewrite He, Hev, list_lookup_insert_eq; [done|]. rewrite <-Hev. by eapply Hlt.
        -- destruct Hh as (l1 & l2 & l3 & p & ev & -> & H1 & H2).
           exists l1, l2, (l3 ++ [(Recv sid (PromptModelResponse id v), EResolve id v)]), p, ev.
           rewrite !resolves_app. cbn. rewrite decide_True by done. cbn.
           rewrite app_assoc, last_snoc, Hp, lookup_insert_eq.
           assert (event ent = ev) as -> by (rewrite Hent in H1; by injection H1 as ->).
           split_and!; [by simplify_list_eq|done|by eexists].
      * apply (ask_history_frame u a σ); [..|done].
        -- intros id' Hi. rewrite Hp. apply lookup_insert_ne. congruence.
        -- intros id' ent' Hi Hl. rewrite He. apply list_lookup_insert_ne.
           intros Heq. apply Hni. rewrite Hi. f_equal. by apply (Hei id' id ent' ent).
        -- intros id' Hi. cbn. rewrite decide_False; [done|]. congruence.
Qed.

Lemma ask_inv_reachable `{!Inj (=) (=) uuid4} tr σ log :
  exec tr init = Some (σ, log) → ask_inv σ log.
Proof.
  revert tr σ log. apply exec_ind; [apply ask_inv_init|].
  intros σ log e σ' effs Hinv Hs. by apply (ask_inv_step σ).
Qed.

(** The ids that [prompt_model] registers are those that [uuid4] produced,
    so no id is registered twice. *)
Lemma registered_NoDup `{!Inj (=) (=) uuid4} σ log :
  ask_inv σ log → NoDup (registered log).
Proof.
  intros Hinv. rewrite (inv_registered _ _ Hinv).
  apply NoDup_fmap_2; [done|apply NoDup_seq].
Qed.

(** C7.  The invariant of [pending_prompts], in every state that a
    schedule reaches from [__init__], provided [uuid4] never produces the
    same id twice.  The keys of the table are exactly the ids of the calls
    of [prompt_model] that are under way (between the registration and the
    [pop]), no two of these calls have the same id, the ids registered so
    far are the successive results of [uuid4], pairwise different, and the
    id of a call that has returned is not in the table any more. *)
Theorem pending_prompts_one_entry_per_ask `{!Inj (=) (=) uuid4}
    (tr : list Event) (σ : State) (log : list (Event * Effect)) :
  exec tr init = Some (σ, log) →
  (∀ id, is_Some (pending_prompts σ !! id) ↔
         ∃ t a, asks σ !! t = Some a ∧ ask_id a = Some id) ∧
  (∀ t1 t2 a1 a2 id, asks σ !! t1 = Some a1 → asks σ !! t2 = Some a2 →
                     ask_id a1 = Some id → ask_id a2 = Some id → t1 = t2) ∧
  registered log = uuid4 <$> seq 0 (uuid_calls σ) ∧
  NoDup (registered log) ∧
  (∀ id, id ∈ returned log → pending_prompts σ !! id = None).
Proof.
  intros Hexec. pose proof (ask_inv_reachable _ _ _ Hexec) as Hinv.
  split_and!.
  - intros id. split; [apply (inv_owner _ _ Hinv)|].
    intros (t & a & Ht & Hid). by destruct (inv_inflight _ _ Hinv t a id Ht Hid).
  - apply (inv_unique _ _ Hinv).
  - apply (inv_registered _ _ Hinv).
  - by apply (registered_NoDup σ).
  - intros id Hid. by destruct (inv_returned _ _ Hinv id Hid).
Qed.





(** ** A run that no other run disturbs *)








(** ** One run per [run_cell] request *)

Lemma fmap_code_alter (f : Run → Run) (t : nat) (l : list Run) :
  (∀ r, code (f r) = code r) → code <$> alter f t l = code <$> l.
Proof.
  intros Hf. revert t. induction l as [|r l IH]; intros [|t]; simpl; try done.
  - by rewrite Hf.
  - f_equal. apply IH.
Qed.

Lemma step_codes e σ σ' effs :
  step e σ = Some (σ', effs) →
  code <$> runs σ' = (code <$> runs σ) ++ run_cell_codes [e].
Proof.
  intros Hs. step_inv Hs; simplify_eq; simpl; rewrite ?app_nil_r; try done.
  all: try by rewrite fmap_app.
  all: rewrite ?fmap_code_alter; try done.
  all: by intros [].
Qed.

Lemma run_cell_codes_app tr1 tr2 :
  run_cell_codes (tr1 ++ tr2) = run_cell_codes tr1 ++ run_cell_codes tr2.
Proof. apply omap_app. Qed.

(** X2.  Every [run_cell] request that the consumer of a call receives starts
    one run, with the code of the request, and nothing else starts a run:
    the codes of the runs are the codes of the requests received, in the
    order of their arrival. *)
Theorem one_run_per_run_cell_request
    (tr : list Event) (σ : State) (log : list (Event * Effect)) :
  exec tr init = Some (σ, log) →
  code <$> runs σ = run_cell_codes tr.
Proof.
  revert tr σ log.
  apply (exec_ind_tr (λ tr σ log, code <$> runs σ = run_cell_codes tr)); [done|].
  intros tr σ log e σ' effs IH Hs.
  by rewrite run_cell_codes_app, (step_codes _ _ _ _ Hs), IH.
Qed.

(** ** The result of a run is its last message *)

Lemma step_absent_run e σ σ' effs t :
  step e σ = Some (σ', effs) → runs σ !! t = None →
  e ≠ Sched t ∧
  (runs σ' !! t = None ∨ ∃ c, runs σ' !! t = Some (new_run c)).
Proof.
  intros Hs Ht. step_inv Hs; simplify_eq; simpl; (split; [try done; congruence|]).
  all: rewrite ?list_lookup_alter; repeat case_decide; subst; rewrite ?Ht; simpl; eauto.
  destruct (decide (t = length (runs σ))) as [->|Hne].
  - right. exists code0. by rewrite lookup_app_r, Nat.sub_diag by lia.
  - left. apply lookup_ge_None. rewrite length_app. simpl.
    apply lookup_ge_None in Ht. lia.
Qed.

Lemma result_last_grown r r' ps : grown r r' → result_last r ps → result_last r' ps.
Proof. intros (Hpc & _). unfold result_last. by rewrite Hpc. Qed.

Lemma result_last_reachable tr σ log t :
  exec tr init = Some (σ, log) →
  match runs σ !! t with
  | Some r => result_last r (puts_by t log)
  | None => puts_by t log = []
  end.
Proof.
  revert tr σ log. apply exec_ind; [done|].
  intros σ log e σ' effs IH Hs.
  unfold puts_by in *. rewrite omap_app. fold (puts_by t log) in *.
  fold (puts_by t ((λ x, (e, x)) <$> effs)). rewrite puts_by_tag.
  destruct (runs σ !! t) as [r|] eqn:Ht.
  - destruct (decide (e = Sched t)) as [->|Hne].
    + simpl in Hs. sched_inv Hs; simplify_eq.
      all: unfold result_last in IH; rewrite Hpc in IH.
      all: simpl; rewrite ?list_lookup_alter; repeat case_decide; subst; try done.
      all: rewrite ?Hr; simpl; unfold result_last; simpl.
      all: repeat match goal with k : Kont |- _ => destruct k end; simpl.
      all: unfold no_result in *; rewrite ?app_nil_r; try done.
      all: try (apply Forall_app; split; [done|by repeat constructor]).
      by eauto 10.
    + destruct (step_other_run _ _ _ _ _ _ Hs Hne Ht) as (r' & -> & Hg).
      rewrite app_nil_r. by eapply result_last_grown.
  - destruct (step_absent_run _ _ _ _ _ Hs Ht) as [Hne [->| [c ->]]].
    all: rewrite decide_False by done; rewrite app_nil_r; try done.
    rewrite IH. constructor.
Qed.

(** X3.  A run puts one [RunCellResult], as the last thing it does, with
    [success] true, whatever its cell does and whatever the other threads
    do: on every schedule from [__init__], a run that is not done has put
    no result, and a run that is done has put exactly one, after all its
    other messages, and takes no more steps. *)
Theorem run_puts_one_result_and_puts_it_last
    (tr : list Event) (σ : State) (log : list (Event * Effect)) (t : nat) (r : Run) :
  exec tr init = Some (σ, log) →
  runs σ !! t = Some r →
  (pc r ≠ PcDone → no_result (puts_by t log)) ∧
  (pc r = PcDone →
   step (Sched t) σ = None ∧
   ∃ ps qi out so se,
     puts_by t log = ps ++ [(qi, RunCellResult out so se true)] ∧ no_result ps).
Proof.
  intros Hexec Ht. pose proof (result_last_reachable _ _ _ t Hexec) as H.
  rewrite Ht in H. unfold result_last in H. split.
  - intros Hnd. by destruct (pc r).
  - intros Hd. rewrite Hd in H. split; [|done].
    simpl. rewrite Ht. simpl. unfold step_run. by rewrite Hd.
Qed.

(** ** The fields of a result *)

Lemma result_parts_grown r r' : grown r r' → result_parts r → result_parts r'.
Proof.
  intros (Hpc & _ & _ & _ & _ & _ & [x Hx] & [y Hy]). unfold result_parts.
  rewrite Hpc, Hx, Hy. destruct (pc r); try done.
  - intros [x0 ->]. exists (x0 +:+ x). by rewrite append_assoc.
  - intros (o1 & e1 & x0 & y0 & -> & -> & ->).
    exists o1, e1, (x0 +:+ x), (y0 +:+ y). by rewrite !append_assoc.
  - intros (o1 & e1 & x0 & y0 & -> & -> & ->).
    exists o1, e1, x0, (y0 +:+ y). by rewrite !append_assoc.
Qed.

Lemma result_parts_step t σ σ' effs r :
  step (Sched t) σ = Some (σ', effs) → runs σ !! t = Some r → result_parts r →
  (∃ r', runs σ' !! t = Some r' ∧ result_parts r') ∧
  Forall result_message_parts ((λ x, (Sched t, x)) <$> effs).
Proof.
  intros Hs Ht Hp. simpl in Hs. sched_inv Hs; simplify_eq.
  all: unfold result_parts in Hp; rewrite Hpc in Hp.
  all: simpl; rewrite ?list_lookup_alter; repeat case_decide; subst; try done.
  all: rewrite ?Hr; simpl.
  all: repeat match goal with k : Kont |- _ => destruct k end; simpl.
  all: split; [eexists; split; [done|]; unfold result_parts; simpl; try done
              |repeat constructor; try done].
  - exists "". by rewrite append_nil_r.
  - destruct Hp as [x Hx]. exists o1, (captured_stderr r), x, "".
    by rewrite append_nil_r.
Qed.

Lemma result_parts_reachable tr σ log :
  exec tr init = Some (σ, log) →
  (∀ t r, runs σ !! t = Some r → result_parts r) ∧ Forall result_message_parts log.
Proof.
  revert tr σ log. apply exec_ind; [done|].
  intros σ log e σ' effs [IH1 IH2] Hs. split.
  - intros t r' Ht'. destruct (runs σ !! t) as [r|] eqn:Ht.
    + destruct (decide (e = Sched t)) as [->|Hne].
      * destruct (result_parts_step _ _ _ _ _ Hs Ht (IH1 _ _ Ht)) as [(r'' & H1 & H2) _].
        congruence.
      * destruct (step_other_run _ _ _ _ _ _ Hs Hne Ht) as (r'' & H1 & Hg).
        assert (r'' = r') as -> by congruence. eapply result_parts_grown; eauto.
    + destruct (step_absent_run _ _ _ _ _ Hs Ht) as [_ [H|[c H]]]; [congruence|].
      by assert (r' = new_run c) as -> by congruence.
  - apply Forall_app. split; [done|].
    destruct e as [|sid req|t|sid|sid].
    + simpl in Hs. simplify_eq. by repeat constructor.
    + simpl in Hs. recv_inv Hs; simplify_eq; by repeat constructor.
    + destruct (runs σ !! t) as [r|] eqn:Ht; [|by simpl in Hs; rewrite Ht in Hs].
      by destruct (result_parts_step _ _ _ _ _ Hs Ht (IH1 _ _ Ht)).
    + simpl in Hs. drain_inv Hs; simplify_eq; by repeat constructor.
    + simpl in Hs. disconnect_inv Hs; simplify_eq; by repeat constructor.
Qed.

(** X4.  The three reads of the buffers that make a result are not one read:
    other threads can append to the buffers between them (and cannot do
    anything else to them).  So in every result that any run puts, on every
    schedule from [__init__], [output] is made of two parts, the first a
    prefix of [stdout] and the second a prefix of [stderr]; and [success]
    is true. *)
Theorem result_fields_begin_with_the_parts_of_output
    (tr : list Event) (σ : State) (log : list (Event * Effect))
    (e : Event) (qi : nat) (out so se : string) (b : bool) :
  exec tr init = Some (σ, log) →
  (e, EPut qi (RunCellResult out so se b)) ∈ log →
  b = true ∧ ∃ o1 e1 x y, out = o1 +:+ e1 ∧ so = o1 +:+ x ∧ se = e1 +:+ y.
Proof.
  intros Hexec Hin. destruct (result_parts_reachable _ _ _ Hexec) as [_ H].
  rewrite Forall_forall in H. apply (H _ Hin).
Qed.

(** ** Which queue a message is put on *)

Lemma installed_app log l qi : installed log qi → installed (log ++ l) qi.
Proof.
  unfold installed. rewrite opened_app, !elem_of_cons, elem_of_app. tauto.
Qed.

Lemma tee_installed_app log l f : tee_installed log f → tee_installed (log ++ l) f.
Proof. destruct f; [done|]. apply installed_app. Qed.

Lemma current_queue_installed log : installed log (current_queue log).
Proof.
  unfold installed, current_queue. destruct (last (opened log)) as [qi|] eqn:Hl; simpl.
  - right. apply last_Some in Hl as [l' ->]. apply elem_of_app. right. left.
  - left.
Qed.

Lemma queues_inv_quiet σ σ' log (l : list (Event * Effect)) :
  opened l = [] →
  queues_inv σ log →
  response_queue σ' = response_queue σ →
  tee_installed log (sys_stdout σ') → tee_installed log (sys_stderr σ') →
  (∀ t r', runs σ' !! t = Some r' →
     installed log (stdout_q r') ∧ installed log (stderr_q r') ∧
     tee_installed log (old_stdout r') ∧ tee_installed log (old_stderr r') ∧
     match pc r' with PcWrite f _ _ => tee_installed log f | _ => True end) →
  queues_inv σ' (log ++ l).
Proof.
  intros Hl (Hq & _) Hq' Ho He Hr. unfold queues_inv.
  split; [|split; [|split]].
  - rewrite Hq', Hq. unfold current_queue. by rewrite opened_app, Hl, app_nil_r.
  - by apply tee_installed_app.
  - by apply tee_installed_app.
  - intros t r' Ht. destruct (Hr t r' Ht) as (H1 & H2 & H3 & H4 & H5).
    split_and!; auto using installed_app, tee_installed_app.
    destruct (pc r'); auto using tee_installed_app.
Qed.

Lemma queues_inv_step σ log e σ' effs :
  queues_inv σ log → step e σ = Some (σ', effs) →
  queues_inv σ' (log ++ ((λ x, (e, x)) <$> effs)) ∧
  (effs = [] ∨ ∃ x, effs = [x]) ∧
  ∀ qi m, EPut qi m ∈ effs →
          installed log qi ∧ (is_output m = false → qi = current_queue log).
Proof.
  intros Hinv Hs. pose proof Hinv as (Hq & Ho & He & Hr).
  pose proof (current_queue_installed log) as Hcur.
  assert (∀ t r, runs σ !! t = Some r → tee_installed log (TeeStream (stdout_q r) false t) ∧
            tee_installed log (TeeStream (stderr_q r) true t)) as Htee.
  { intros t r Ht. destruct (Hr t r Ht) as (H1 & H2 & _). by split. }
  destruct e as [|sid req|t|sid|sid].
  - simpl in Hs. simplify_eq. split; [|split; [by eauto|]].
    + unfold queues_inv. simpl. split; [|split; [|split]].
      * unfold current_queue. rewrite opened_app. cbn. by rewrite last_snoc.
      * by apply tee_installed_app.
      * by apply tee_installed_app.
      * intros t r Ht. destruct (Hr t r Ht) as (H1 & H2 & H3 & H4 & H5).
        split_and!; auto using installed_app, tee_installed_app.
        destruct (pc r); auto using tee_installed_app.
    + intros qi m Hin. apply list_elem_of_singleton in Hin. discriminate.
  - simpl in Hs. recv_inv Hs; simplify_eq.
    all: (split; [|split; [by eauto|]]);
      [eapply queues_inv_quiet; [|exact Hinv|..]; try done; simpl
      |intros ?qi ?msg Hin; repeat (apply elem_of_cons in Hin as [Hin|Hin]; [discriminate|]);
       by apply elem_of_nil in Hin].
    intros t r' Ht'. apply lookup_app_Some in Ht' as [Ht'|[_ Ht']]; [by apply (Hr t)|].
    apply list_lookup_singleton_Some in Ht' as [_ <-]. simpl. split_and!; try done; left.
  - simpl in Hs. sched_inv Hs; simplify_eq.
    all: destruct (Hr _ _ Hr0) as (H1 & H2 & H3 & H4 & H5); rewrite Hpc in H5.
    all: (split; [|split; [by eauto|]]);
      [eapply queues_inv_quiet; [|exact Hinv|..]; try done; simpl; try done
      |intros ?qi ?msg Hin; repeat (apply elem_of_cons in Hin as [Hin|Hin]; [|]);
       try (by apply elem_of_nil in Hin); simplify_eq; simpl; try done;
       rewrite ?Hq; try (split; [done|]); try done].
    all: try (intros u r' Hu; rewrite ?list_lookup_alter in Hu;
              repeat case_decide; subst; rewrite ?Hr0 in Hu; simpl in Hu; simplify_eq;
              [|by apply (Hr u)]; simpl; split_and!; try done;
              try (rewrite Hq; apply Hcur); try by destruct k).
    all: try by rewrite Hq.
    intros u r' Hu. rewrite !list_lookup_alter in Hu.
    repeat case_decide; subst; rewrite ?Hr0 in Hu; simpl in Hu; simplify_eq; simpl.
    1,2: split_and!; try done; by destruct k.
    + destruct (runs σ !! u) as [ru|] eqn:Hru; simpl in Hu; simplify_eq.
      by destruct (Hr u ru Hru) as (G1 & G2 & G3 & G4 & G5).
    + by apply (Hr u).
  - simpl in Hs. drain_inv Hs; simplify_eq.
    all: (split; [|split; [by eauto|]]);
      [eapply queues_inv_quiet; [|exact Hinv|..]; try done; simpl
      |intros ?qi ?msg Hin; repeat (apply elem_of_cons in Hin as [Hin|Hin]; [discriminate|]);
       by apply elem_of_nil in Hin].
  - simpl in Hs. disconnect_inv Hs; simplify_eq.
    (split; [|split; [by eauto|]]);
      [eapply queues_inv_quiet; [|exact Hinv|..]; try done; simpl
      |intros ?qi ?msg Hin; by apply elem_of_nil in Hin].
Qed.

Lemma snoc_split {A} (l pre post : list A) (x y : A) :
  l ++ [y] = pre ++ x :: post →
  (pre = l ∧ x = y ∧ post = []) ∨ ∃ post', post = post' ++ [y] ∧ l = pre ++ x :: post'.
Proof.
  destruct post as [|z post _] using rev_ind; intros H.
  - left. by apply app_inj_tail in H as [-> ->].
  - right. exists post. rewrite app_comm_cons, app_assoc in H.
    by apply app_inj_tail in H as [-> ->].
Qed.

Lemma queues_inv_reachable tr σ log :
  exec tr init = Some (σ, log) → queues_inv σ log ∧ puts_on_installed log.
Proof.
  revert tr σ log. apply exec_ind.
  { split.
    - unfold queues_inv. simpl. split_and!; try done.
    - intros pre e qi m post H. by destruct pre. }
  intros σ log e σ' effs [IH1 IH2] Hs.
  destruct (queues_inv_step _ _ _ _ _ IH1 Hs) as (H1 & Heffs & Hputs).
  split; [done|]. destruct Heffs as [->|[x ->]].
  { simpl. by rewrite app_nil_r. }
  intros pre e' qi m post Heq. simpl in Heq.
  apply snoc_split in Heq as [(-> & Hx & ->)|(post' & -> & ->)].
  - injection Hx as <- <-. apply Hputs. left.
  - by eapply IH2.
Qed.


(** ** The end of a call *)

Lemma yields_of_app sid l1 l2 : yields_of sid (l1 ++ l2) = yields_of sid l1 ++ yields_of sid l2.
Proof. apply omap_app. Qed.

Lemma puts_on_app qi l1 l2 : puts_on qi (l1 ++ l2) = puts_on qi l1 ++ puts_on qi l2.
Proof. apply omap_app. Qed.

Lemma yields_of_tag sid e effs :
  (∀ m, (e, EYield m) ∉ (λ x, (e, x)) <$> effs) ∨ e ≠ Drain sid →
  yields_of sid ((λ x, (e, x)) <$> effs) = [].
Proof.
  intros H. unfold yields_of. induction effs as [|x effs IH]; [done|]. cbn.
  rewrite IH.
  - destruct e as [| | |s|]; try done. destruct x; try done.
    case_decide; [|done]. subst. destruct H as [H|H]; [|done].
    exfalso. apply (H m). left.
  - destruct H as [H|H]; [left|by right]. intros m Hm. apply (H m). by right.
Qed.

Lemma step_quiet_calls e σ σ' effs :
  step e σ = Some (σ', effs) →
  match e with Recv _ _ | Sched _ => True | _ => False end →
  calls σ' = calls σ ∧ length (queues σ') = length (queues σ) ∧
  opened ((λ x, (e, x)) <$> effs) = [] ∧
  (∀ sid, yields_of sid ((λ x, (e, x)) <$> effs) = []) ∧
  (∀ qi l, queues σ !! qi = Some l → queues σ' !! qi = Some (l ++ puts_in qi effs)).
Proof.
  intros Hs He.
  assert (calls σ' = calls σ ∧ length (queues σ') = length (queues σ) ∧
          opened ((λ x, (e, x)) <$> effs) = []) as (H1 & H2 & H3).
  { step_inv Hs; simplify_eq; simpl; try done.
    all: by rewrite ?length_alter. }
  split_and!; try done.
  - intros sid. apply yields_of_tag. right. by destruct e.
  - destruct (step_queues _ _ _ _ Hs) as [[H _]|(? & ? & ? & ? & -> & _)]; done.
Qed.

Lemma installed_lt tr σ log qi :
  call_inv tr σ log → installed log qi → qi < length (queues σ).
Proof.
  intros (Hlen & Hop & _) Hin. unfold installed in Hin. rewrite Hop in Hin.
  apply elem_of_cons in Hin as [->|Hin]; [lia|].
  apply elem_of_seq in Hin. lia.
Qed.

Lemma puts_in_none qi effs :
  (∀ m, EPut qi m ∉ effs) → puts_in qi effs = [].
Proof.
  intros H. unfold puts_in. induction effs as [|x effs IH]; [done|]. cbn.
  rewrite IH.
  - destruct x; try done. case_decide; [|done]. subst. exfalso. apply (H m). left.
  - intros m Hm. apply (H m). by right.
Qed.

Lemma call_ok_quiet tr σ log e σ' effs sid c :
  call_ok tr σ log sid c →
  yields_of sid ((λ x, (e, x)) <$> effs) = [] →
  (∀ l, queues σ !! q c = Some l → queues σ' !! q c = Some (l ++ puts_in (q c) effs)) →
  call_ok (tr ++ [e]) σ' (log ++ ((λ x, (e, x)) <$> effs)) sid c.
Proof.
  intros (Hq & Hact & l & Hl & Heq & Hstop) Hy Hput.
  split; [done|]. split.
  { intros H. apply elem_of_app. left. auto. }
  exists (l ++ puts_in (q c) effs). split; [auto|].
  rewrite yields_of_app, puts_on_app, Hy, app_nil_r, puts_on_tag, app_assoc, Heq.
  split; [done|]. intros Hloop. destruct (Hstop Hloop) as (Ha & l1 & l2 & -> & H1 & ->).
  split; [done|]. exists l1, (l2 ++ ((λ x, (e, x)) <$> effs)). split_and!.
  - by rewrite app_assoc.
  - done.
  - by rewrite puts_on_app, puts_on_tag.
Qed.

Lemma call_inv_quiet tr σ log e σ' effs :
  call_inv tr σ log →
  calls σ' = calls σ → length (queues σ') = length (queues σ) →
  opened ((λ x, (e, x)) <$> effs) = [] →
  (∀ sid, yields_of sid ((λ x, (e, x)) <$> effs) = []) →
  (∀ qi l, queues σ !! qi = Some l → queues σ' !! qi = Some (l ++ puts_in qi effs)) →
  (∀ qi, length (queues σ) ≤ qi → puts_in qi effs = []) →
  call_inv (tr ++ [e]) σ' (log ++ ((λ x, (e, x)) <$> effs)).
Proof.
  intros (Hlen & Hop & Hny & Hnp & Hcalls) Hc Hl Ho Hy Hq Hfar.
  unfold call_inv. rewrite Hc, Hl, opened_app, Ho, app_nil_r.
  split_and!; try done.
  - intros sid Hsid. rewrite yields_of_app, Hy, app_nil_r. by apply Hny.
  - intros qi Hqi. rewrite puts_on_app, puts_on_tag, Hfar, app_nil_r by done. by apply Hnp.
  - intros sid c Hcs. apply (call_ok_quiet _ σ); auto.
Qed.

Lemma call_inv_step tr σ log e σ' effs :
  call_inv tr σ log → queues_inv σ log → step e σ = Some (σ', effs) →
  call_inv (tr ++ [e]) σ' (log ++ ((λ x, (e, x)) <$> effs)).
Proof.
  intros Hinv Hqinv Hs.
  pose proof Hinv as (Hlen & Hop & Hny & Hnp & Hcalls).
  destruct (queues_inv_step _ _ _ _ _ Hqinv Hs) as (_ & _ & Hputs).
  assert (∀ qi, length (queues σ) ≤ qi → puts_in qi effs = []) as Hfar.
  { intros qi Hqi. apply puts_in_none. intros m Hm. destruct (Hputs _ _ Hm) as [Hi _].
    apply (installed_lt _ _ _ _ Hinv) in Hi. lia. }
  destruct e as [|sid' req|t|sid'|sid'].
  - simpl in Hs. simplify_eq. unfold call_inv. simpl. rewrite !length_app. simpl.
    split_and!.
    + lia.
    + rewrite opened_app. cbn. rewrite Hop, Hlen.
      replace (length (calls σ) + 1) with (S (length (calls σ))) by lia.
      by rewrite seq_S.
    + intros sid Hsid. rewrite yields_of_app. cbn. rewrite app_nil_r. apply Hny. lia.
    + intros qi Hqi. rewrite puts_on_app. cbn. rewrite app_nil_r. apply Hnp. lia.
    + intros sid c Hc. apply lookup_app_Some in Hc as [Hc|[Hge Hc]].
      * apply (call_ok_quiet tr σ log OpenStream _ [EOpen (length (queues σ))]);
          [by apply Hcalls|done|].
        simpl. intros l Hl. rewrite app_nil_r. by apply lookup_app_l_Some.
      * apply list_lookup_singleton_Some in Hc as [Hsid <-].
        assert (sid = length (calls σ)) as -> by lia.
        split; [simpl; lia|]. split; [done|]. exists []. simpl.
        split; [by rewrite lookup_app_r, Nat.sub_diag by lia|].
        split; [|done]. rewrite app_nil_r, yields_of_app, puts_on_app. cbn.
        by rewrite Hny, Hnp by lia.
  - destruct (step_quiet_calls _ _ _ _ Hs I) as (Hc & Hl & Ho & Hy & Hq).
    by apply (call_inv_quiet _ σ).
  - destruct (step_quiet_calls _ _ _ _ Hs I) as (Hc & Hl & Ho & Hy & Hq).
    by apply (call_inv_quiet _ σ).
  - simpl in Hs. drain_inv Hs; simplify_eq.
    all: destruct (Hcalls _ _ Hc) as (Hqc & Hact & l & Hlq & Heq & Hstop).
    all: try congruence.
    all: assert (l = [] ∨ ∃ m rest, l = m :: rest) as Hl0 by (destruct l; eauto).
    + apply (call_inv_quiet tr σ' log (Drain sid') σ' []); try done.
      intros qi l' Hl'. by rewrite app_nil_r.
    + unfold call_inv. simpl. rewrite length_insert, app_nil_r.
      split_and!; try done. intros sid c0 Hc0.
      destruct (decide (sid = sid')) as [->|Hne].
      * rewrite list_lookup_insert_eq in Hc0 by (by eapply lookup_lt_Some).
        injection Hc0 as <-. assert (l = []) as -> by congruence.
        rewrite app_nil_r in Heq.
        split; [done|]. split.
        { intros _. apply elem_of_app. left. by apply Hact. }
        exists []. simpl. rewrite app_nil_r. split_and!; try done.
        intros _. split; [done|]. exists log, []. by rewrite app_nil_r.
      * rewrite list_lookup_insert_ne in Hc0 by done.
        pose proof (call_ok_quiet tr σ log (Drain sid')
                      (set_calls (<[sid' := {| q := q c; is_active := false; looping := false |}]>
                                    (calls σ)) σ) [] sid c0 (Hcalls _ _ Hc0)) as H.
        simpl in H. rewrite app_nil_r in H. apply H; [done|].
        intros l' Hl'. by rewrite app_nil_r.
    + unfold call_inv. simpl. rewrite length_insert, opened_app. cbn. rewrite app_nil_r.
      split_and!; try done.
      * intros sid Hsid. rewrite yields_of_app. cbn.
        apply lookup_lt_Some in Hc. rewrite decide_False by lia.
        rewrite app_nil_r. by apply Hny.
      * intros qi Hqi. rewrite puts_on_app. cbn. rewrite app_nil_r. by apply Hnp.
      * intros sid c0 Hc0. destruct (decide (sid = sid')) as [->|Hne].
        { assert (c0 = c) as -> by congruence. assert (l = m :: rest) as -> by congruence.
          split; [done|]. split.
          { intros H. apply elem_of_app. left. by apply Hact. }
          exists rest. simpl.
          split; [apply list_lookup_insert_eq; by eapply lookup_lt_Some|].
          rewrite yields_of_app, puts_on_app. cbn. rewrite decide_True by done.
          rewrite app_nil_r, <-app_assoc. split; [done|]. intros; congruence. }
        destruct (Hcalls _ _ Hc0) as (Hqc0 & _).
        apply (call_ok_quiet tr σ log (Drain sid') _ [EYield m]); [by apply Hcalls| |].
        { cbn. by rewrite decide_False by done. }
        simpl. intros l' Hl'. rewrite app_nil_r, list_lookup_insert_ne; [done|lia].
    + unfold call_inv. simpl. rewrite length_insert, opened_app. cbn. rewrite app_nil_r.
      split_and!; try done.
      * intros sid Hsid. rewrite yields_of_app. cbn.
        apply lookup_lt_Some in Hc. rewrite decide_False by lia.
        rewrite app_nil_r. by apply Hny.
      * intros qi Hqi. rewrite puts_on_app. cbn. rewrite app_nil_r. by apply Hnp.
      * intros sid c0 Hc0. destruct (decide (sid = sid')) as [->|Hne].
        { assert (c0 = c) as -> by congruence. assert (l = m :: rest) as -> by congruence.
          split; [done|]. split.
          { intros H. apply elem_of_app. left. by apply Hact. }
          exists rest. simpl.
          split; [apply list_lookup_insert_eq; by eapply lookup_lt_Some|].
          rewrite yields_of_app, puts_on_app. cbn. rewrite decide_True by done.
          rewrite app_nil_r, <-app_assoc. split; [done|]. intros; congruence. }
        destruct (Hcalls _ _ Hc0) as (Hqc0 & _).
        apply (call_ok_quiet tr σ log (Drain sid') _ [EYield m]); [by apply Hcalls| |].
        { cbn. by rewrite decide_False by done. }
        simpl. intros l' Hl'. rewrite app_nil_r, list_lookup_insert_ne; [done|lia].
  - simpl in Hs. disconnect_inv Hs; simplify_eq.
    unfold call_inv. simpl. rewrite length_insert, app_nil_r.
    split_and!; try done. intros sid c0 Hc0.
    destruct (decide (sid = sid')) as [->|Hne].
    + rewrite list_lookup_insert_eq in Hc0 by (by eapply lookup_lt_Some).
      injection Hc0 as <-.
      destruct (Hcalls _ _ Hc) as (Hqc & Hact & l & Hlq & Heq & Hstop).
      split; [done|]. split.
      { intros _. apply elem_of_app. right. left. }
      exists l. simpl. split_and!; try done.
      intros Hloop. by destruct (Hstop Hloop) as [_ H].
    + rewrite list_lookup_insert_ne in Hc0 by done.
      pose proof (call_ok_quiet tr σ log (Disconnect sid')
                    (set_calls (<[sid' := {| q := q c; is_active := false; looping := looping c |}]>
                                  (calls σ)) σ) [] sid c0 (Hcalls _ _ Hc0)) as H.
      simpl in H. rewrite app_nil_r in H. apply H; [done|].
      intros l' Hl'. by rewrite app_nil_r.
Qed.

Lemma call_inv_reachable tr σ log :
  exec tr init = Some (σ, log) → call_inv tr σ log.
Proof.
  intros Hexec. cut (call_inv tr σ log ∧ queues_inv σ log); [tauto|].
  revert tr σ log Hexec. apply exec_ind_tr.
  { split; [|by destruct (queues_inv_reachable [] init [] eq_refl)].
    unfold call_inv. simpl. split_and!; try done. }
  intros tr σ log e σ' effs [IH1 IH2] Hs. split; [by apply (call_inv_step _ σ)|].
  by destruct (queues_inv_step _ _ _ _ _ IH2 Hs).
Qed.

(** X6.  The loop of a call, on every schedule from [__init__].  What the call
    has yielded and what is left in its queue is, in order, what was put
    on its queue.  While the peer is connected the loop goes on, and an
    iteration is always possible.  When the loop has stopped, the peer had
    gone and the queue was empty at that moment: all that had been put on
    the queue until then has been yielded, and all that has been put on it
    since is in the queue, where nothing will take it. *)
Theorem RunStream_stops_only_when_disconnected_and_drained
    (tr : list Event) (σ : State) (log : list (Event * Effect)) (sid : nat) (c : Call) :
  exec tr init = Some (σ, log) →
  calls σ !! sid = Some c →
  (∃ l, queues σ !! q c = Some l ∧ yields_of sid log ++ l = puts_on (q c) log) ∧
  (is_active c = true → looping c = true) ∧
  (looping c = true → is_Some (step (Drain sid) σ)) ∧
  (looping c = false →
   Disconnect sid ∈ tr ∧ step (Drain sid) σ = None ∧
   ∃ l1 l2, log = l1 ++ l2 ∧ yields_of sid log = puts_on (q c) l1 ∧
            queues σ !! q c = Some (puts_on (q c) l2)).
Proof.
  intros Hexec Hc.
  destruct (call_inv_reachable _ _ _ Hexec) as (_ & _ & _ & _ & Hcalls).
  destruct (Hcalls _ _ Hc) as (Hq & Hact & l & Hl & Heq & Hstop).
  split_and!.
  - by exists l.
  - intros Ha. destruct (looping c); [done|]. destruct Hstop; congruence.
  - intros Hloop. simpl. unfold RunStream_loop. rewrite Hc. simpl. rewrite Hloop, Hl.
    destruct l; [destruct (is_active c)|]; by eexists.
  - intros Hloop. destruct (Hstop Hloop) as (Ha & l1 & l2 & -> & H1 & ->).
    split_and!; [by apply Hact| |by exists l1, l2].
    simpl. unfold RunStream_loop. rewrite Hc. simpl. by rewrite Hloop.
Qed.

(** X7.  A call whose peer has gone does not stop at once: its loop first
    yields, in order, all that is in its queue (the test of [is_active] is
    made only when [q.get] times out), and the iteration that finds the
    queue empty stops it; no further iteration is possible. *)
Theorem RunStream_yields_its_backlog_before_it_stops
    (σ : State) (sid : nat) (c : Call) (l : list ServerMessage) :
  calls σ !! sid = Some c →
  looping c = true → is_active c = false →
  queues σ !! q c = Some l →
  ∃ σ', exec (repeat (Drain sid) (S (length l))) σ =
          Some (σ', (λ m, (Drain sid, EYield m)) <$> l) ∧
        looping <$> calls σ' !! sid = Some false ∧
        queues σ' !! q c = Some [] ∧
        step (Drain sid) σ' = None.
Proof.
  revert σ. induction l as [|m l IH]; intros σ Hc Hloop Ha Hq.
  - eexists. cbn [length repeat exec]. simpl. unfold RunStream_loop.
    rewrite Hc. simpl. rewrite Hloop, Hq, Ha. simpl. split; [done|]. simpl.
    unfold RunStream_loop. simpl.
    rewrite list_lookup_insert_eq by (by eapply lookup_lt_Some). done.
  - set (σ1 := set_queues (<[q c := l]> (queues σ)) σ).
    destruct (IH σ1) as (σ' & Hexec & H1 & H2 & H3); try done.
    { simpl. apply list_lookup_insert_eq. by eapply lookup_lt_Some. }
    exists σ'. split; [|done].
    change (repeat (Drain sid) (S (length (m :: l))))
      with (Drain sid :: repeat (Drain sid) (S (length l))).
    cbn [exec]. assert (step (Drain sid) σ = Some (σ1, [EYield m])) as ->.
    { simpl. unfold RunStream_loop. rewrite Hc. simpl. by rewrite Hloop, Hq. }
    simpl. simpl in Hexec. by rewrite Hexec.
Qed.

(** ** The redirections of a run that no other run disturbs *)

Lemma step_no_run_frame e σ σ' effs t r :
  step e σ = Some (σ', effs) → (∀ u, e ≠ Sched u) → runs σ !! t = Some r →
  runs σ' !! t = Some r ∧ sys_stdout σ' = sys_stdout σ ∧ sys_stderr σ' = sys_stderr σ ∧
  console σ' = console σ.
Proof.
  intros Hs Hne Ht. step_inv Hs; simplify_eq; simpl; try done.
  all: try (exfalso; by eapply Hne).
  split; [by apply lookup_app_l_Some|done].
Qed.

Lemma restore_phase_step s0 e0 c0 t σ σ' effs r :
  runs σ !! t = Some r → restore_phase s0 e0 c0 t σ r →
  step (Sched t) σ = Some (σ', effs) →
  ∃ r', runs σ' !! t = Some r' ∧ restore_phase s0 e0 c0 t σ' r'.
Proof.
  intros Ht [Hc Hph] Hs. simpl in Hs. sched_inv Hs; simplify_eq.
  all: rewrite Hpc in Hph.
  all: repeat match goal with H : _ ∧ _ |- _ => destruct H end; try done.
  all: simpl; rewrite ?list_lookup_alter; repeat case_decide; subst; try done.
  all: rewrite ?Hr; simpl.
  all: eexists; (split; [done|]); unfold restore_phase; simpl; (split; [done|]).
  all: repeat match goal with k : Kont |- _ => destruct k end; simpl.
  all: split_and?; try done; congruence.
Qed.

Lemma restore_phase_reachable t σ0 r0 tr σ log :
  runs σ0 !! t = Some r0 → pc r0 = PcStdoutStream →
  Forall (only_run t) tr →
  exec tr σ0 = Some (σ, log) →
  ∃ r, runs σ !! t = Some r ∧
       restore_phase (sys_stdout σ0) (sys_stderr σ0) (console σ0) t σ r.
Proof.
  intros Ht0 Hpc0 Hal Hexec. revert tr σ log Hexec Hal.
  apply (exec_ind_tr (λ tr σ log, Forall (only_run t) tr → ∃ r, runs σ !! t = Some r ∧
           restore_phase (sys_stdout σ0) (sys_stderr σ0) (console σ0) t σ r)).
  { intros _. exists r0. split; [done|]. unfold restore_phase. by rewrite Hpc0. }
  intros tr σ log e σ' effs IH Hs Hal.
  rewrite Forall_app, Forall_singleton in Hal. destruct Hal as [Hal Hal0].
  destruct (IH Hal) as (r & Ht & Hph).
  destruct (decide (e = Sched t)) as [->|Hne].
  - by eapply restore_phase_step.
  - destruct (step_no_run_frame _ _ _ _ t r Hs) as (Ht' & Ho & He & Hc); [|done|].
    { intros u ->. simpl in Hal0. congruence. }
    exists r. split; [done|]. unfold restore_phase in *. rewrite Ho, He, Hc. done.
Qed.

(** X8.  The two redirections of a run, when no other run takes a step between
    its start and its end (requests, answers, iterations of the loops and
    new calls are allowed, and the cell can prompt).  While the run is
    inside its [with] block, [sys.stdout] and [sys.stderr] are its own two
    tees; once it has left the block, they are bound to what they were
    bound to before the run started; and at no moment has anything been
    written to the streams of the process. *)
Theorem run_alone_restores_sys_stdout_and_stderr
    (σ0 : State) (t : nat) (r0 : Run)
    (tr : list Event) (σ : State) (log : list (Event * Effect)) :
  runs σ0 !! t = Some r0 →
  pc r0 = PcStdoutStream →
  Forall (only_run t) tr →
  exec tr σ0 = Some (σ, log) →
  ∃ r, runs σ !! t = Some r ∧
       (inside_with (pc r) = true →
        sys_stdout σ = TeeStream (stdout_q r) false t ∧
        sys_stderr σ = TeeStream (stderr_q r) true t) ∧
       (past_with (pc r) = true →
        sys_stdout σ = sys_stdout σ0 ∧ sys_stderr σ = sys_stderr σ0) ∧
       console σ = console σ0.
Proof.
  intros Ht0 Hpc0 Hal Hexec.
  destruct (restore_phase_reachable _ _ _ _ _ _ Ht0 Hpc0 Hal Hexec) as (r & Ht & Hc & Hph).
  exists r. split; [done|].
  destruct (pc r); simpl; split_and!; try done; tauto.
Qed.

(** ** A run that does not prompt, whatever the others do *)

Lemma notices_app ps1 ps2 : notices (ps1 ++ ps2) = notices ps1 ++ notices ps2.
Proof. apply omap_app. Qed.

Lemma notices_fragment qi s b : notices (fragment qi s b) = [].
Proof. unfold fragment. by case_decide. Qed.

Lemma free_phase_grown c r r' ps n : grown r r' → free_phase c r ps n → free_phase c r' ps n.
Proof.
  intros (Hpc & Hcode & _). unfold free_phase. by rewrite Hpc, Hcode.
Qed.

Lemma free_phase_step c t σ σ' effs r ps n :
  ask_free c →
  runs σ !! t = Some r → free_phase c r ps n →
  step (Sched t) σ = Some (σ', effs) →
  ∃ r', runs σ' !! t = Some r' ∧ free_phase c r' (ps ++ puts_of effs) (S n).
Proof.
  intros Hfree Ht [Hn Hph] Hs. simpl in Hs. sched_inv Hs; simplify_eq.
  all: rewrite Hpc in Hph, Hn; simpl in Hph, Hn; try done.
  all: repeat match goal with H : _ ∧ _ |- _ => destruct H end; subst.
  all: simpl; rewrite ?list_lookup_alter; repeat case_decide; subst; try done.
  all: rewrite ?Hr; simpl.
  all: eexists; (split; [done|]); unfold free_phase; simpl.
  all: repeat match goal with k : Kont |- _ => destruct k end; simpl in *.
  all: rewrite ?app_nil_r, ?notices_app in *; simpl.
  all: split; [lia|]; try done.
  all: rewrite <-?app_assoc; simpl; try done.
  all: rewrite ?app_nil_r; tauto.
Qed.

Lemma free_phase_progress c t σ r ps n :
  runs σ !! t = Some r → free_phase c r ps n → pc r ≠ PcDone →
  is_Some (step (Sched t) σ).
Proof.
  intros Ht [_ Hph] Hnd. simpl. rewrite Ht. simpl. unfold step_run.
  revert Hph Hnd.
  destruct (pc r) as [ | | | |[]|[] ? ?|? ? ? ?| | | | | | | | | | | ]; try done.
  all: intros Hph _; simpl in Hph; try by eexists.
  unfold OutputStream_write. case_bool_decide; by eexists.
Qed.

Lemma free_phase_reachable t σ0 r0 c tr σ log :
  runs σ0 !! t = Some r0 → pc r0 = PcStdoutStream →
  ipy_run_cell (code r0) = c → ask_free c →
  exec tr σ0 = Some (σ, log) →
  ∃ r, runs σ !! t = Some r ∧ free_phase c r (puts_by t log) (steps_of t tr).
Proof.
  intros Ht0 Hpc0 Hc Hfree. revert tr σ log. apply exec_ind_tr.
  { exists r0. split; [done|]. unfold free_phase. rewrite Hpc0. simpl.
    split; [unfold steps_of; simpl; lia|done]. }
  intros tr σ log e0 σ' effs (r & Ht & Hph) Hs.
  unfold puts_by in *. rewrite omap_app. fold (puts_by t log) in *.
  fold (puts_by t ((λ x, (e0, x)) <$> effs)).
  rewrite puts_by_tag, steps_of_snoc.
  destruct (decide (e0 = Sched t)) as [->|Hne].
  - eapply free_phase_step; eauto.
  - destruct (step_other_run _ _ _ _ _ _ Hs Hne Ht) as (r' & Ht' & Hg).
    exists r'. split; [done|]. rewrite app_nil_r. by eapply free_phase_grown.
Qed.

Lemma free_phase_facts c r ps n :
  free_phase c r ps n →
  n ≤ 11 + cell_steps c ∧
  (n = 11 + cell_steps c → pc r = PcDone) ∧
  (∃ rest, notices ps ++ rest = cell_notices c) ∧
  (pc r = PcDone → notices ps = cell_notices c).
Proof.
  intros [Hn Hph]. revert Hn Hph.
  destruct (pc r) as [ | | | |?|? ? ?|? ? ? ?| | | | | | | | | | | ]; simpl; try done.
  all: intros Hn Hph.
  all: repeat match goal with H : _ ∧ _ |- _ => destruct H end; subst.
  all: split_and!; try lia; try done; eauto.
  all: try (eexists; by rewrite app_nil_r).
Qed.

(** X9.  A run whose cell does not call [prompt_model] cannot be held up:
    whatever the other threads do (other runs that write through its tees
    or rebind [sys.stdout], new calls, a peer that goes away, a loop that
    stops), each of its steps is possible until it is done, and it is done
    after at most [11 + cell_steps c] steps of its own. *)
Theorem run_without_prompts_finishes_whatever_the_others_do
    (σ0 : State) (t : nat) (r0 : Run) (c : Cell)
    (tr : list Event) (σ : State) (log : list (Event * Effect)) :
  runs σ0 !! t = Some r0 →
  pc r0 = PcStdoutStream →
  ipy_run_cell (code r0) = c →
  ask_free c →
  exec tr σ0 = Some (σ, log) →
  ∃ r, runs σ !! t = Some r ∧
       steps_of t tr ≤ 11 + cell_steps c ∧
       (pc r ≠ PcDone → is_Some (step (Sched t) σ)) ∧
       (steps_of t tr = 11 + cell_steps c → pc r = PcDone).
Proof.
  intros Ht0 Hpc0 Hc Hfree Hexec.
  destruct (free_phase_reachable t σ0 r0 c tr σ log) as (r & Ht & Hph); try done.
  destruct (free_phase_facts _ _ _ _ Hph) as (H1 & H2 & _).
  exists r. split_and!; try done.
  intros Hnd. by eapply free_phase_progress.
Qed.

(** X10.  [prompt_self] does not depend on the redirections: whatever the other
    threads do, the notices that a run (of a cell that does not call
    [prompt_model]) has put are, in order, the first of the calls of
    [prompt_self] of its cell, one [PromptSelfRequest] per call, and when
    the run is done they are all of them. *)
Theorem prompt_self_puts_one_notice_per_call_in_order
    (σ0 : State) (t : nat) (r0 : Run) (c : Cell)
    (tr : list Event) (σ : State) (log : list (Event * Effect)) :
  runs σ0 !! t = Some r0 →
  pc r0 = PcStdoutStream →
  ipy_run_cell (code r0) = c →
  ask_free c →
  exec tr σ0 = Some (σ, log) →
  ∃ r, runs σ !! t = Some r ∧
       (∃ rest, notices (puts_by t log) ++ rest = cell_notices c) ∧
       (pc r = PcDone → notices (puts_by t log) = cell_notices c).
Proof.
  intros Ht0 Hpc0 Hc Hfree Hexec.
  destruct (free_phase_reachable t σ0 r0 c tr σ log) as (r & Ht & Hph); try done.
  destruct (free_phase_facts _ _ _ _ Hph) as (_ & _ & H3 & H4).
  by exists r.
Qed.

(** ** The fragments of a run *)

Lemma outputs_app ps1 ps2 : outputs (ps1 ++ ps2) = outputs ps1 ++ outputs ps2.
Proof. apply omap_app. Qed.

Lemma tags_inv_step e σ σ' effs :
  tags_inv σ → step e σ = Some (σ', effs) → tags_inv σ'.
Proof.
  intros (Ho & He & Hr) Hs. step_inv Hs; simplify_eq.
  all: try match goal with H : runs _ !! _ = Some _ |- _ => pose proof (Hr _ _ H) as [? ?] end.
  all: unfold tags_inv; simpl; split_and!; try done.
  all: intros u r' Hu.
  all: try (by apply (Hr u)).
  all: rewrite ?list_lookup_alter in Hu.
  all: try (apply lookup_app_Some in Hu as [Hu|[_ Hu]]; [by apply (Hr u)|];
            apply list_lookup_singleton_Some in Hu as [_ <-]; by simpl).
  all: repeat case_decide; subst; rewrite ?Hr0 in Hu; simpl in Hu; simplify_eq; simpl;
    try (by apply (Hr u)); try done.
  all: destruct (runs σ !! u) as [ru|] eqn:Hru; simpl in Hu; simplify_eq; simpl;
    by apply (Hr u).
Qed.

Lemma order_phase_step t σ σ' effs r ps :
  tags_inv σ → runs σ !! t = Some r → order_phase r ps →
  step (Sched t) σ = Some (σ', effs) →
  ∃ r', runs σ' !! t = Some r' ∧ order_phase r' (ps ++ puts_of effs).
Proof.
  intros (Ho & He & _) Ht Hph Hs. simpl in Hs. sched_inv Hs; simplify_eq.
  all: simpl; rewrite ?list_lookup_alter; repeat case_decide; subst; try done.
  all: rewrite ?Hr; simpl.
  all: eexists; (split; [done|]); unfold order_phase in *; simpl.
  all: intros Hfree; specialize (Hph Hfree); rewrite Hpc in Hph; simpl in Hph.
  all: repeat match goal with
              | H : _ ∧ _ |- _ => destruct H
              | H : ∃ _, _ |- _ => destruct H
              end; subst.
  all: rewrite ?app_nil_r, ?outputs_app in *; simpl; rewrite ?app_nil_r; try done.
  all: repeat match goal with k : Kont |- _ => destruct k end; simpl in *.
  all: rewrite ?app_nil_r in *.
  all: unfold frag in *; rewrite ?decide_True, ?decide_False in * by done; simpl in *.
  all: rewrite ?app_nil_r in *.
  all: try (split; [done|]).
  all: try match goal with
           | H : ?pre ++ _ = cell_outputs ?c |- _ `sublist_of` cell_outputs ?c =>
               rewrite <-H; by apply sublist_inserts_r
           | H : ?pre = cell_outputs ?c |- _ `sublist_of` cell_outputs ?c =>
               by rewrite <-H
           | H : ?pre ++ _ = cell_outputs ?c |- ∃ _, _ ∧ _ = cell_outputs ?c =>
               first [ exists pre; split; [done|]; by rewrite <-H
                     | eexists; split; [|by rewrite <-H, ?app_assoc];
                       first [by apply sublist_inserts_r | by apply sublist_app] ]
           | H : ?pre = cell_outputs ?c |- ∃ _, _ ∧ _ = cell_outputs ?c =>
               first [ exists pre; split; [done|]; by rewrite <-H ]
           | |- ∃ pre, [] `sublist_of` pre ∧ _ => by exists []
           end.
  all: try match goal with
           | H : ?pre ++ _ = cell_outputs ?c |- ∃ b _, _ ∧ _ ∧ _ = cell_outputs ?c =>
               first [exists true, pre; split_and!; [done|done|by rewrite ?app_nil_r]
                     |exists false, pre; split_and!; [done|done|by rewrite ?app_nil_r]]
           end.
  - exists x0. by rewrite app_nil_r.
  - exists (x0 ++ [Output s x]). split; [by apply sublist_app|].
    by rewrite <-app_assoc.
  - exists (x0 ++ [Output s x]). split; [by apply sublist_app|].
    by rewrite app_nil_r.
Qed.

Lemma order_phase_grown r r' ps : grown r r' → order_phase r ps → order_phase r' ps.
Proof. intros (Hpc & Hcode & _). unfold order_phase. by rewrite Hpc, Hcode. Qed.

Lemma order_phase_reachable tr σ log :
  exec tr init = Some (σ, log) →
  tags_inv σ ∧
  ∀ t, match runs σ !! t with
       | Some r => order_phase r (puts_by t log)
       | None => puts_by t log = []
       end.
Proof.
  revert tr σ log. apply exec_ind.
  { split; [|done]. unfold tags_inv. simpl. by split_and!. }
  intros σ log e σ' effs [Htags IH] Hs. split; [by eapply tags_inv_step|].
  intros t. specialize (IH t).
  unfold puts_by in *. rewrite omap_app. fold (puts_by t log) in *.
  fold (puts_by t ((λ x, (e, x)) <$> effs)). rewrite puts_by_tag.
  destruct (runs σ !! t) as [r|] eqn:Ht.
  - destruct (decide (e = Sched t)) as [->|Hne].
    + by destruct (order_phase_step _ _ _ _ _ _ Htags Ht IH Hs) as (r' & -> & H).
    + destruct (step_other_run _ _ _ _ _ _ Hs Hne Ht) as (r' & -> & Hg).
      rewrite app_nil_r. by eapply order_phase_grown.
  - destruct (step_absent_run _ _ _ _ _ Hs Ht) as [Hne [->| [c ->]]].
    all: rewrite decide_False by done; rewrite app_nil_r; try done.
    rewrite IH. by intros _.
Qed.

(** X11.  The fragments that a run puts follow the writes of its cell: whatever
    the other threads do, the [Output] messages put by a run (of a cell
    that does not call [prompt_model]) are, in order and with the tag of
    the stream written to, fragments of the non-empty writes of its cell
    (and of the text of the exception when [run_cell] raises).  None is
    put twice, none out of order, none with the wrong tag; some can be
    missing, when another run has bound [sys.stdout] or [sys.stderr] back
    to the stream of the process. *)
Theorem fragments_of_a_run_keep_the_order_of_its_writes
    (tr : list Event) (σ : State) (log : list (Event * Effect)) (t : nat) (r : Run) :
  exec tr init = Some (σ, log) →
  runs σ !! t = Some r →
  ask_free (ipy_run_cell (code r)) →
  outputs (puts_by t log) `sublist_of` cell_outputs (ipy_run_cell (code r)).
Proof.
  intros Hexec Ht Hfree. destruct (order_phase_reachable _ _ _ Hexec) as [_ H].
  specialize (H t). rewrite Ht in H. specialize (H Hfree). revert H.
  destruct (pc r); try done.
  - intros ->. apply sublist_nil_l.
  - intros ->. apply sublist_nil_l.
  - intros ->. apply sublist_nil_l.
  - intros ->. apply sublist_nil_l.
  - intros (_ & pre & H1 & <-). by apply sublist_inserts_r.
  - intros (_ & b & pre & _ & H1 & <-). by apply sublist_inserts_r.
  - intros (_ & pre & H1 & <-). by apply sublist_inserts_r.
Qed.

End Properties.

(** * Properties of the one-shot endpoint *)

Section OneShot.

Context {kernel : Daemon.Kernel}.

(** What a call of [run_cell] does to the process when the two streams
    are bound to two different buffers. *)
Lemma run_split c p i j :
  i ≠ j →
  Daemon.sys_stdout p = Daemon.StringIO i → Daemon.sys_stderr p = Daemon.StringIO j →
  ∃ p', Daemon.run c p = (p', Daemon.raises c) ∧
        Daemon.sys_stdout p' = Daemon.sys_stdout p ∧
        Daemon.sys_stderr p' = Daemon.sys_stderr p ∧
        Daemon.console p' = Daemon.console p ∧
        Daemon.buffers p' !! i =
          (λ v, v +:+ Daemon.script_stdout c) <$> Daemon.buffers p !! i ∧
        Daemon.buffers p' !! j =
          (λ v, v +:+ Daemon.script_stderr c) <$> Daemon.buffers p !! j ∧
        ∀ k, k ≠ i → k ≠ j → Daemon.buffers p' !! k = Daemon.buffers p !! k.
Proof.
  intros Hij. revert p. induction c as [|e|s c IH|s c IH]; intros p Ho He; simpl.
  - exists p. split_and!; try done.
    all: destruct (Daemon.buffers p !! _); simpl; by rewrite ?append_nil_r.
  - exists p. split_and!; try done.
    all: destruct (Daemon.buffers p !! _); simpl; by rewrite ?append_nil_r.
  - rewrite Ho. destruct (IH (Daemon.write (Daemon.StringIO i) s p))
      as (p' & H1 & H2 & H3 & H4 & H5 & H6 & H7); try done.
    exists p'. simpl in *. split_and!; try done; try congruence.
    + rewrite H5, list_lookup_alter_eq. destruct (Daemon.buffers p !! i); simpl; [|done].
      by rewrite append_assoc.
    + by rewrite H6, list_lookup_alter_ne.
    + intros k Hk1 Hk2. by rewrite H7, list_lookup_alter_ne.
  - rewrite He. destruct (IH (Daemon.write (Daemon.StringIO j) s p))
      as (p' & H1 & H2 & H3 & H4 & H5 & H6 & H7); try done.
    exists p'. simpl in *. split_and!; try done; try congruence.
    + by rewrite H5, list_lookup_alter_ne.
    + rewrite H6, list_lookup_alter_eq. destruct (Daemon.buffers p !! j); simpl; [|done].
      by rewrite append_assoc.
    + intros k Hk1 Hk2. by rewrite H7, list_lookup_alter_ne.
Qed.

(** The same when both streams are bound to one buffer. *)
Lemma run_merged c p i :
  Daemon.sys_stdout p = Daemon.StringIO i → Daemon.sys_stderr p = Daemon.StringIO i →
  ∃ p', Daemon.run c p = (p', Daemon.raises c) ∧
        Daemon.sys_stdout p' = Daemon.sys_stdout p ∧
        Daemon.sys_stderr p' = Daemon.sys_stderr p ∧
        Daemon.console p' = Daemon.console p ∧
        Daemon.buffers p' !! i =
          (λ v, v +:+ Daemon.script_output c) <$> Daemon.buffers p !! i ∧
        ∀ k, k ≠ i → Daemon.buffers p' !! k = Daemon.buffers p !! k.
Proof.
  revert p. induction c as [|e|s c IH|s c IH]; intros p Ho He; simpl.
  - exists p. split_and!; try done.
    destruct (Daemon.buffers p !! _); simpl; by rewrite ?append_nil_r.
  - exists p. split_and!; try done.
    destruct (Daemon.buffers p !! _); simpl; by rewrite ?append_nil_r.
  - rewrite Ho. destruct (IH (Daemon.write (Daemon.StringIO i) s p))
      as (p' & H1 & H2 & H3 & H4 & H5 & H6); try done.
    exists p'. simpl in *. split_and!; try done; try congruence.
    + rewrite H5, list_lookup_alter_eq. destruct (Daemon.buffers p !! i); simpl; [|done].
      by rewrite append_assoc.
    + intros k Hk1. by rewrite H6, list_lookup_alter_ne.
  - rewrite He. destruct (IH (Daemon.write (Daemon.StringIO i) s p))
      as (p' & H1 & H2 & H3 & H4 & H5 & H6); try done.
    exists p'. simpl in *. split_and!; try done; try congruence.
    + rewrite H5, list_lookup_alter_eq. destruct (Daemon.buffers p !! i); simpl; [|done].
      by rewrite append_assoc.
    + intros k Hk1. by rewrite H6, list_lookup_alter_ne.
Qed.

(** The closed form of the handler: the response of each mode, and the
    state of the process after the request. *)
Lemma run_ipython_cell_closed request p :
  let c := Daemon.run_cell (Daemon.code request) in
  let '(resp, p') := Daemon.run_ipython_cell request p in
  resp =
    match Daemon.raises c with
    | Some e => Daemon.HTTPException 500 e
    | None =>
        if Daemon.truthy (Daemon.split_output request)
        then Daemon.Result {| Daemon.output := None;
                              Daemon.stdout := Some (Daemon.script_stdout c);
                              Daemon.stderr := Some (Daemon.script_stderr c) |}
        else Daemon.Result {| Daemon.output := Some (Daemon.script_output c);
                              Daemon.stdout := None; Daemon.stderr := None |}
    end ∧
  Daemon.sys_stdout p' = Daemon.sys_stdout p ∧
  Daemon.sys_stderr p' = Daemon.sys_stderr p ∧
  Daemon.console p' = Daemon.console p ∧
  ∀ k v, Daemon.buffers p !! k = Some v → Daemon.buffers p' !! k = Some v.
Proof.
  intros c. unfold Daemon.run_ipython_cell.
  destruct (Daemon.truthy (Daemon.split_output request)); simpl; unfold Daemon.redirect; simpl.
  - set (i := length (Daemon.buffers p)).
    set (j := length (Daemon.buffers p ++ [""])).
    assert (j = S i) as Hj by (subst i j; rewrite length_app; simpl; lia).
    match goal with |- context [Daemon.run ?c0 ?p0] =>
      destruct (run_split c0 p0 i j) as (p' & -> & H2 & H3 & H4 & H5 & H6 & H7);
        [lia|done|done|] end.
    fold c. simpl in *.
    assert (Daemon.buffers p' !! i = Some (Daemon.script_stdout c)) as Hi.
    { rewrite H5. subst i. rewrite <-app_assoc, lookup_app_r, Nat.sub_diag by lia. done. }
    assert (Daemon.buffers p' !! j = Some (Daemon.script_stderr c)) as Hj'.
    { rewrite H6. subst j. rewrite lookup_app_r, Nat.sub_diag by lia. done. }
    assert (∀ k v, Daemon.buffers p !! k = Some v → Daemon.buffers p' !! k = Some v) as Hk.
    { intros k v Hkv. pose proof (lookup_lt_Some _ _ _ Hkv) as Hlt.
      rewrite H7 by (subst i; lia). by rewrite <-app_assoc, lookup_app_l. }
    destruct (Daemon.raises c); simpl; split_and!; try done.
    unfold Daemon.getvalue. simpl. by rewrite Hi, Hj'.
  - set (i := length (Daemon.buffers p)).
    match goal with |- context [Daemon.run ?c0 ?p0] =>
      destruct (run_merged c0 p0 i) as (p' & -> & H2 & H3 & H4 & H5 & H7);
        [done|done|] end.
    fold c. simpl in *.
    assert (Daemon.buffers p' !! i = Some (Daemon.script_output c)) as Hi.
    { rewrite H5. subst i. rewrite lookup_app_r, Nat.sub_diag by lia. done. }
    assert (∀ k v, Daemon.buffers p !! k = Some v → Daemon.buffers p' !! k = Some v) as Hk.
    { intros k v Hkv. pose proof (lookup_lt_Some _ _ _ Hkv) as Hlt.
      rewrite H7 by (subst i; lia). by rewrite lookup_app_l. }
    destruct (Daemon.raises c); simpl; split_and!; try done.
    unfold Daemon.getvalue. simpl. by rewrite Hi.
Qed.

Lemma interleaved_script c :
  Daemon.interleaved (Daemon.script_stdout c) (Daemon.script_stderr c) (Daemon.script_output c).
Proof.
  induction c as [|e|s c IH|s c IH]; simpl.
  - constructor.
  - constructor.
  - by apply Daemon.interleaved_l.
  - by apply Daemon.interleaved_r.
Qed.

(** X12.  With [split_output] true, and when [run_cell] returns, the response
    has in [stdout] all that the cell wrote to [sys.stdout], in [stderr]
    all that it wrote to [sys.stderr], each in the order of the writes, and
    no [output]; whatever the state of the process. *)
Theorem run_ipython_cell_splits_stdout_and_stderr
    (request : Daemon.RunIPythonCellRequest) (p : Daemon.Process) :
  Daemon.split_output request = Some true →
  Daemon.raises (Daemon.run_cell (Daemon.code request)) = None →
  (Daemon.run_ipython_cell request p).1 =
    Daemon.Result
      {| Daemon.output := None;
         Daemon.stdout := Some (Daemon.script_stdout (Daemon.run_cell (Daemon.code request)));
         Daemon.stderr := Some (Daemon.script_stderr (Daemon.run_cell (Daemon.code request))) |}.
Proof.
  intros Hsplit Hret. pose proof (run_ipython_cell_closed request p) as H. simpl in H.
  destruct (Daemon.run_ipython_cell request p) as [resp p']. destruct H as [-> _].
  by rewrite Hret, Hsplit.
Qed.

(** X13.  Without [split_output] ([False], or [None]), and when [run_cell]
    returns, the response has only [output], which is all that the cell
    wrote to either stream in the order of the writes: an interleaving of
    what the split mode reports as [stdout] and as [stderr]. *)
Theorem run_ipython_cell_merges_output_in_write_order
    (request : Daemon.RunIPythonCellRequest) (p : Daemon.Process) :
  Daemon.split_output request ≠ Some true →
  Daemon.raises (Daemon.run_cell (Daemon.code request)) = None →
  (Daemon.run_ipython_cell request p).1 =
    Daemon.Result
      {| Daemon.output := Some (Daemon.script_output (Daemon.run_cell (Daemon.code request)));
         Daemon.stdout := None; Daemon.stderr := None |} ∧
  Daemon.interleaved
    (Daemon.script_stdout (Daemon.run_cell (Daemon.code request)))
    (Daemon.script_stderr (Daemon.run_cell (Daemon.code request)))
    (Daemon.script_output (Daemon.run_cell (Daemon.code request))).
Proof.
  intros Hsplit Hret. split; [|apply interleaved_script].
  pose proof (run_ipython_cell_closed request p) as H. simpl in H.
  destruct (Daemon.run_ipython_cell request p) as [resp p']. destruct H as [-> _].
  rewrite Hret. by destruct (Daemon.split_output request) as [[]|].
Qed.

(** X14.  When [run_cell] itself raises, the handler raises
    [HTTPException(500)] with the text of the exception as its detail, in
    either mode and whatever the cell had written before: that output is
    not returned. *)
Theorem run_ipython_cell_engine_failure_is_a_500
    (request : Daemon.RunIPythonCellRequest) (p : Daemon.Process) (e : string) :
  Daemon.raises (Daemon.run_cell (Daemon.code request)) = Some e →
  (Daemon.run_ipython_cell request p).1 = Daemon.HTTPException 500 e.
Proof.
  intros Hraise. pose proof (run_ipython_cell_closed request p) as H. simpl in H.
  destruct (Daemon.run_ipython_cell request p) as [resp p']. destruct H as [-> _].
  by rewrite Hraise.
Qed.

(** X15.  A request leaves the process as it found it, whether [run_cell]
    returns or raises: [sys.stdout] and [sys.stderr] are bound to what they
    were bound to before, nothing of the cell's output has reached the
    streams of the process, and no buffer that existed before has changed. *)
Theorem run_ipython_cell_restores_the_streams
    (request : Daemon.RunIPythonCellRequest) (p : Daemon.Process) :
  Daemon.sys_stdout (Daemon.run_ipython_cell request p).2 = Daemon.sys_stdout p ∧
  Daemon.sys_stderr (Daemon.run_ipython_cell request p).2 = Daemon.sys_stderr p ∧
  Daemon.console (Daemon.run_ipython_cell request p).2 = Daemon.console p ∧
  ∀ k v, Daemon.buffers p !! k = Some v →
         Daemon.buffers (Daemon.run_ipython_cell request p).2 !! k = Some v.
Proof.
  pose proof (run_ipython_cell_closed request p) as H. simpl in H.
  destruct (Daemon.run_ipython_cell request p) as [resp p']. by destruct H as [_ H].
Qed.

End OneShot.


(** * Instances

    The theorems applied to the engine and the schedules of the examples. *)

#[global] Existing Instance demo_env.

#[global] Instance demo_uuid4_inj : Inj (=) (=) (@uuid4 demo_env).
Proof. exact pretty_nat_inj. Qed.

(** ** C10 *)

Lemma OutputStream_write_enqueues_iff_nonempty_witness :
  queues init !! 0 = Some [] ∧
  (OutputStream_write 0 false "hi" init).2 = 2 ∧
  (OutputStream_write 0 false "" init).1.2 = [].
Proof.
  split; [reflexivity|].
  pose proof (OutputStream_write_enqueues_iff_nonempty 0 false "hi" init [] eq_refl) as H1.
  pose proof (OutputStream_write_enqueues_iff_nonempty 0 false "" init [] eq_refl) as H2.
  destruct (OutputStream_write 0 false "hi" init) as [[σ1 e1] n1].
  destruct (OutputStream_write 0 false "" init) as [[σ2 e2] n2].
  destruct H1 as (-> & _ & _). destruct H2 as (_ & _ & H2).
  split; [reflexivity|]. simpl. by destruct H2 as [_ (_ & -> & _)].
Defined.

(** ** C1 *)


(** ** C2 *)

(** C2, as stated, fails.  Two answers, [Ada] then [Bob], arrive for the id
    of a pending prompt before the run wakes up: the second is stored over
    the first (the table changes), and the run gets and prints [Bob]. *)
Lemma second_answer_is_the_one_observed :
  pending_prompts (state_after (ask_schedule ++ [Recv 0 (PromptModelResponse "0" "Ada")]))
    !! "0" = Some {| event := 0; response := Some "Ada" |} ∧
  pending_prompts (state_after (ask_schedule ++ [Recv 0 (PromptModelResponse "0" "Ada");
                                                 Recv 0 (PromptModelResponse "0" "Bob")]))
    !! "0" = Some {| event := 0; response := Some "Bob" |} ∧
  log_after (ask_schedule ++ [Recv 0 (PromptModelResponse "0" "Ada");
                              Recv 0 (PromptModelResponse "0" "Bob")] ++ repeat (Sched 0) 13) =
    [(OpenStream, EOpen 1); (Sched 0, ERegister "0" "name?");
     (Sched 0, EPut 1 (PromptModelRequest "name?" "0"));
     (Recv 0 (PromptModelResponse "0" "Ada"), EResolve "0" "Ada");
     (Recv 0 (PromptModelResponse "0" "Bob"), EResolve "0" "Bob");
     (Sched 0, EReturn "0" (Returns (Some "Bob")));
     (Sched 0, EPut 1 (Output "Bob" false));
     (Sched 0, EPut 1 (RunCellResult "Bob" "Bob" "" true))].
Proof. split_and!; vm_compute; reflexivity. Qed.

Lemma later_answer_overwrites_earlier_witness :
  ∃ σ3, step (Sched 0)
          (_handle_prompt_response "0" "Bob"
             (_handle_prompt_response "0" "Ada"
                (state_after (ask_schedule ++ [Recv 0 (PromptModelResponse "0" "x"); Sched 0]))).1).1
        = Some (σ3, [EReturn "0" (Returns (Some "Bob"))]) ∧
        pending_prompts σ3 !! "0" = None.
Proof.
  set (σ := state_after (ask_schedule ++ [Recv 0 (PromptModelResponse "0" "x"); Sched 0])).
  destruct (runs σ !! 0) as [r|] eqn:Hr; [|by vm_compute in Hr].
  assert (∃ k, pc r = PcPromptPop "0" k) as [k Hpc].
  { vm_compute in Hr. injection Hr as <-. by eexists. }
  destruct (later_answer_overwrites_earlier "0" "Ada" "Bob"
              {| event := 0; response := Some "x" |} σ 0 r k)
    as (_ & _ & _ & σ3 & H1 & _ & H2 & _); [by vm_compute|done|done|].
  by exists σ3.
Defined.

(** ** C3 *)

Lemma answer_for_unknown_id_is_dropped_witness :
  step (Recv 0 (PromptModelResponse "no such id" "Ada")) (RunStream_open init) =
  Some (RunStream_open init, []).
Proof.
  apply (answer_for_unknown_id_is_dropped 0 "no such id" "Ada" (RunStream_open init)).
  - reflexivity.
  - by eexists.
Defined.

(** ** C4, C5 *)

(** C4, on two runs that overlap.  [redirect_stdout] rebinds the one
    [sys.stdout] of the interpreter.  Run 0 prints [a] while the streams of
    run 1 are installed: the fragment is streamed, but the result of run 0
    has no output at all.  Run 1 prints [b] after run 0 has put back the
    stream it had found: nothing is streamed for it, and its result does
    not have [b]. *)
Lemma result_can_miss_the_output_of_its_cell :
  ipy_run_cell "print('a')" = WriteOut "a" Return ∧
  ipy_run_cell "print('b')" = WriteOut "b" Return ∧
  puts_by 0 (log_after overlap_schedule) =
    [(1, Output "a" false); (1, RunCellResult "" "" "" true)] ∧
  puts_by 1 (log_after overlap_schedule) = [(1, RunCellResult "a" "a" "" true)] ∧
  console (state_after overlap_schedule) = ["b"].
Proof. split_and!; vm_compute; reflexivity. Qed.

(** C5, on the same schedule.  The accumulated [stdout] of run 1, whose
    cell only prints [b], is the fragment [a] that run 0 produced, and the
    interpreter is left with the tee of run 0 as [sys.stdout]. *)
Lemma overlapping_runs_write_into_each_other :
  captured_stdout <$> runs (state_after overlap_schedule) !! 0 = Some "" ∧
  captured_stdout <$> runs (state_after overlap_schedule) !! 1 = Some "a" ∧
  puts_on 1 (log_after overlap_schedule) =
    [Output "a" false; RunCellResult "" "" "" true; RunCellResult "a" "a" "" true] ∧
  sys_stdout (state_after overlap_schedule) = TeeStream 1 false 0.
Proof. split_and!; vm_compute; reflexivity. Qed.

(** ** C9 *)

(** C9, on two runs that overlap.  Run 0 appends [a] to the buffer of run 1
    between two reads of that buffer: the result of run 1 has [output] [b]
    and [stdout] [ba]. *)
Lemma output_can_differ_from_stdout_then_stderr :
  puts_by 1 (log_after race_schedule) =
    [(1, Output "b" false); (1, RunCellResult "b" "ba" "" true)] ∧
  "b" ≠ "ba" +:+ "".
Proof. split; [vm_compute; reflexivity|discriminate]. Qed.

(** ** C6 *)

Lemma engine_failure_reaches_stderr_and_result_witness :
  ∃ qi out so se,
    puts_by 0 (log_after ([OpenStream; Recv 0 (RunCellRequest "boom")] ++
                          repeat (Sched 0) 14)) =
      [(1, Output "engine down" true); (qi, RunCellResult out so se true)] ∧
    contains "engine down" se.
Proof.
  set (σ0 := state_after ([OpenStream; Recv 0 (RunCellRequest "boom")] ++ repeat (Sched 0) 4)).
  destruct (runs σ0 !! 0) as [r0|] eqn:Hr; [|by vm_compute in Hr].
  assert (pc r0 = PcRunCell (Raise "engine down") ∧ stderr_q r0 = 1) as [Hpc Hq].
  { vm_compute in Hr. by injection Hr as <-. }
  destruct (exec (repeat (Sched 0) 10) σ0) as [[σ log]|] eqn:E; [|by vm_compute in E].
  destruct (engine_failure_reaches_stderr_and_result σ0 0 r0 "engine down" _ σ log Hr Hpc E)
    as (r & _ & _ & _ & _ & _ & Hdone).
  destruct Hdone as (_ & qi & out & so & se & Hputs & Hse & _); [by vm_compute|].
  exists qi, out, so, se. split; [|done].
  rewrite Hq in Hputs. vm_compute in E. injection E as _ <-.
  vm_compute in Hputs. vm_compute. exact Hputs.
Defined.

(** ** C7 *)

Lemma pending_prompts_one_entry_per_ask_witness :
  NoDup (registered (log_after ask_schedule)) ∧
  is_Some (pending_prompts (state_after ask_schedule) !! "0").
Proof.
  destruct (exec ask_schedule init) as [[σ log]|] eqn:E; [|by vm_compute in E].
  destruct (pending_prompts_one_entry_per_ask _ _ _ E) as (Hown & _ & _ & Hnd & _).
  unfold log_after, state_after. rewrite E. simpl. split; [done|].
  apply Hown. exists 0, (AskWait "0" 0). vm_compute in E. by injection E as <- _.
Defined.

(** ** C8 *)


(** ** Runs that do not overlap *)


(** Two cells, the second run after the first is done: each result has
    the output of its own cell. *)
Lemma sequential_runs_keep_their_output :
  puts_on 1 (log_after ([OpenStream; Recv 0 (RunCellRequest "print('a')");
                         Recv 0 (RunCellRequest "print('b')")] ++
                        repeat (Sched 0) 15 ++ repeat (Sched 1) 15)) =
  [Output "a" false; RunCellResult "a" "a" "" true;
   Output "b" false; RunCellResult "b" "b" "" true].
Proof. vm_compute. reflexivity. Qed.

(** ** Requests and runs *)

Lemma one_run_per_run_cell_request_witness :
  code <$> runs (state_after overlap_schedule) = ["print('a')"; "print('b')"].
Proof.
  destruct (exec overlap_schedule init) as [[σ log]|] eqn:E; [|by vm_compute in E].
  unfold state_after. rewrite E. simpl.
  by rewrite (one_run_per_run_cell_request _ _ _ E).
Defined.

Lemma run_puts_one_result_and_puts_it_last_witness :
  ∃ ps qi out so se,
    puts_by 0 (log_after overlap_schedule) = ps ++ [(qi, RunCellResult out so se true)] ∧
    no_result ps.
Proof.
  destruct (exec overlap_schedule init) as [[σ log]|] eqn:E; [|by vm_compute in E].
  unfold log_after. rewrite E. simpl.
  destruct (runs σ !! 0) as [r|] eqn:Hr.
  2:{ vm_compute in E. injection E as <- _. by vm_compute in Hr. }
  destruct (run_puts_one_result_and_puts_it_last _ _ _ 0 r E Hr) as [_ H].
  apply H. vm_compute in E. injection E as <- _. vm_compute in Hr. by injection Hr as <-.
Defined.

Lemma result_fields_begin_with_the_parts_of_output_witness :
  ∃ o1 e1 x y, "b" = o1 +:+ e1 ∧ "ba" = o1 +:+ x ∧ "" = e1 +:+ y.
Proof.
  destruct (exec race_schedule init) as [[σ log]|] eqn:E; [|by vm_compute in E].
  apply (result_fields_begin_with_the_parts_of_output _ _ _ (Sched 1) 1 "b" "ba" "" true E).
  vm_compute in E. injection E as _ <-. do 3 right. left.
Defined.


(** ** The end of a call *)

Lemma RunStream_stops_only_when_disconnected_and_drained_witness :
  Disconnect 0 ∈ hangup_schedule ∧
  step (Drain 0) (state_after hangup_schedule) = None ∧
  ∃ l1 l2, log_after hangup_schedule = l1 ++ l2 ∧
           yields_of 0 (log_after hangup_schedule) = puts_on 1 l1 ∧
           queues (state_after hangup_schedule) !! 1 = Some (puts_on 1 l2).
Proof.
  destruct (exec hangup_schedule init) as [[σ log]|] eqn:E; [|by vm_compute in E].
  unfold state_after, log_after. rewrite E. simpl.
  destruct (RunStream_stops_only_when_disconnected_and_drained _ _ _ 0
              {| q := 1; is_active := false; looping := false |} E) as (_ & _ & _ & H).
  { vm_compute in E. by injection E as <- _. }
  by apply H.
Defined.

Lemma RunStream_yields_its_backlog_before_it_stops_witness :
  ∃ σ', exec (repeat (Drain 0) 3)
          (state_after ([OpenStream; Recv 0 (RunCellRequest "print('a')")] ++
                        repeat (Sched 0) 15 ++ [Disconnect 0])) =
        Some (σ', [(Drain 0, EYield (Output "a" false));
                   (Drain 0, EYield (RunCellResult "a" "a" "" true))]) ∧
        looping <$> calls σ' !! 0 = Some false.
Proof.
  destruct (RunStream_yields_its_backlog_before_it_stops
              (state_after ([OpenStream; Recv 0 (RunCellRequest "print('a')")] ++
                            repeat (Sched 0) 15 ++ [Disconnect 0]))
              0 {| q := 1; is_active := false; looping := true |}
              [Output "a" false; RunCellResult "a" "a" "" true])
    as (σ' & H1 & H2 & _); try reflexivity.
  by exists σ'.
Defined.

(** ** Runs *)

Lemma run_alone_restores_sys_stdout_and_stderr_witness :
  ∃ σ, fst <$> exec (repeat (Sched 0) 15)
                 (state_after [OpenStream; Recv 0 (RunCellRequest "print('a')")]) = Some σ ∧
       sys_stdout σ = Console ∧ sys_stderr σ = Console ∧ console σ = [].
Proof.
  set (σ0 := state_after [OpenStream; Recv 0 (RunCellRequest "print('a')")]).
  destruct (exec (repeat (Sched 0) 15) σ0) as [[σ log]|] eqn:E; [|by vm_compute in E].
  destruct (run_alone_restores_sys_stdout_and_stderr σ0 0 (new_run "print('a')")
              (repeat (Sched 0) 15) σ log) as (r & Hr & _ & H & Hc);
    try reflexivity; try done.
  { by repeat constructor. }
  exists σ. split; [done|].
  destruct H as [H1 H2]; [|done].
  vm_compute in E. injection E as <- _. vm_compute in Hr. by injection Hr as <-.
Defined.

Lemma run_without_prompts_finishes_whatever_the_others_do_witness :
  ∃ σ, fst <$> exec (repeat (Sched 0) 4 ++ repeat (Sched 1) 4 ++
                     repeat (Sched 0) 11 ++ repeat (Sched 1) 10)
                 (state_after [OpenStream; Recv 0 (RunCellRequest "print('a')");
                               Recv 0 (RunCellRequest "print('b')")]) = Some σ ∧
       ∃ r, runs σ !! 1 = Some r ∧
            (pc r ≠ PcDone → is_Some (step (Sched 1) σ)).
Proof.
  set (σ0 := state_after [OpenStream; Recv 0 (RunCellRequest "print('a')");
                          Recv 0 (RunCellRequest "print('b')")]).
  set (tr := repeat (Sched 0) 4 ++ repeat (Sched 1) 4 ++
             repeat (Sched 0) 11 ++ repeat (Sched 1) 10).
  destruct (exec tr σ0) as [[σ log]|] eqn:E; [|by vm_compute in E].
  destruct (run_without_prompts_finishes_whatever_the_others_do σ0 1 (new_run "print('b')")
              (WriteOut "b" Return) tr σ log) as (r & Hr & _ & H & _);
    try reflexivity; try done.
  exists σ. split; [done|]. by exists r.
Defined.

Lemma prompt_self_puts_one_notice_per_call_in_order_witness :
  ∃ log, snd <$> @exec notice_env (repeat (Sched 0) 16)
                   (@state_after notice_env
                      [OpenStream; Recv 0 (RunCellRequest "prompt_self('hi'); print(4)")]) =
         Some log ∧
         ∃ rest, notices (puts_by 0 log) ++ rest = ["hi"].
Proof.
  set (σ0 := @state_after notice_env
               [OpenStream; Recv 0 (RunCellRequest "prompt_self('hi'); print(4)")]).
  destruct (@exec notice_env (repeat (Sched 0) 16) σ0) as [[σ log]|] eqn:E;
    [|by vm_compute in E].
  destruct (@prompt_self_puts_one_notice_per_call_in_order notice_env σ0 0
              (new_run "prompt_self('hi'); print(4)")
              (CallPromptSelf "hi" (WriteOut "4" Return)) (repeat (Sched 0) 16) σ log)
    as (r & _ & H & _); try reflexivity; try done.
  by exists log.
Defined.

Lemma fragments_of_a_run_keep_the_order_of_its_writes_witness :
  outputs (puts_by 0 (log_after overlap_schedule)) `sublist_of` [Output "a" false].
Proof.
  destruct (exec overlap_schedule init) as [[σ log]|] eqn:E; [|by vm_compute in E].
  unfold log_after. rewrite E. simpl.
  destruct (runs σ !! 0) as [r|] eqn:Hr.
  2:{ vm_compute in E. injection E as <- _. by vm_compute in Hr. }
  assert (code r = "print('a')") as Hcode.
  { vm_compute in E. injection E as <- _. vm_compute in Hr. by injection Hr as <-. }
  pose proof (fragments_of_a_run_keep_the_order_of_its_writes _ _ _ 0 r E Hr) as H.
  rewrite Hcode in H. by apply H.
Defined.

(** ** The one-shot endpoint *)

Lemma run_ipython_cell_splits_stdout_and_stderr_witness :
  (@Daemon.run_ipython_cell demo_kernel
     {| Daemon.code := "print('a'); warn('w'); print('b')"; Daemon.split_output := Some true |}
     Daemon.init).1 =
  Daemon.Result {| Daemon.output := None; Daemon.stdout := Some "ab";
                   Daemon.stderr := Some "w" |}.
Proof.
  by apply (@run_ipython_cell_splits_stdout_and_stderr demo_kernel
              {| Daemon.code := "print('a'); warn('w'); print('b')";
                 Daemon.split_output := Some true |} Daemon.init).
Defined.

Lemma run_ipython_cell_merges_output_in_write_order_witness :
  (@Daemon.run_ipython_cell demo_kernel
     {| Daemon.code := "print('a'); warn('w'); print('b')"; Daemon.split_output := None |}
     Daemon.init).1 =
  Daemon.Result {| Daemon.output := Some "awb"; Daemon.stdout := None;
                   Daemon.stderr := None |} ∧
  Daemon.interleaved "ab" "w" "awb".
Proof.
  by apply (@run_ipython_cell_merges_output_in_write_order demo_kernel
              {| Daemon.code := "print('a'); warn('w'); print('b')";
                 Daemon.split_output := None |} Daemon.init).
Defined.

Lemma run_ipython_cell_engine_failure_is_a_500_witness :
  (@Daemon.run_ipython_cell demo_kernel
     {| Daemon.code := "print('a'); boom"; Daemon.split_output := Some true |}
     Daemon.init).1 =
  Daemon.HTTPException 500 "engine down".
Proof.
  by apply (@run_ipython_cell_engine_failure_is_a_500 demo_kernel
              {| Daemon.code := "print('a'); boom"; Daemon.split_output := Some true |}
              Daemon.init "engine down").
Defined.
